(** * starlette-sessions: the session state machines and the cookie pipeline

    A shallow embedding of the Python package [starlette_sessions]:

    - [base.py]: [BaseBackendSession] / [StandardBackendSession], the lazy
      join-or-open state machine over a [BaseSessionBackend];
    - [memory/backend.py]: [MemorySessionBackend];
    - [cookie/base.py]: [StandardCookieBackendSession];
    - [cookie/backend.py]: [CookieSessionBackend], serialize, sign, encode;
    - [signedcookie/backend.py]: [SignedCookieSessionBackend].

    Mutable objects are records threaded explicitly; a method that may raise
    returns a [result] next to the state it leaves behind. *)

From Stdlib Require Import List NArith ZArith Lia Bool Ascii.
From Stdlib Require String DecimalPos.
Import ListNotations.
Import String.StringSyntax.
Delimit Scope string_scope with string.
Local Open Scope list_scope.

(** ** Python data *)

(** A [str] is a sequence of Unicode code points, a [bytes] a sequence of
    octets. *)
Definition str := list N.
Definition bytes := list ascii.

(** Literals: [u "abc"] is the str, [b "abc"] the bytes, of an ASCII text. *)
Definition b (s : String.string) : bytes := String.list_ascii_of_string s.
Definition u (s : String.string) : str :=
  map N_of_ascii (String.list_ascii_of_string s).
Arguments b s%_string.
Arguments u s%_string.

Definition str_eq_dec : forall s t : str, {s = t} + {s <> t} :=
  list_eq_dec N.eq_dec.
Definition str_eqb (s t : str) : bool := if str_eq_dec s t then true else false.

(** The values a session holds ([Any] in the source), as far as [json] can
    write them.  A float is kept as the text [repr] writes it with, which is
    the text [json] writes and which [float] reads back to the same float;
    float arithmetic is outside this development. *)
Unset Elimination Schemes.
Inductive pyval : Type :=
| PNone
| PBool (v : bool)
| PInt (z : Z)
| PFloat (literal : str)
| PStr (s : str)
| PList (items : list pyval)
| PDict (entries : list (str * pyval)).
Set Elimination Schemes.

(** A [dict] with [str] keys keeps its entries in insertion order; a key
    occurs once. *)
Definition dict := list (str * pyval).

Fixpoint dict_get (d : dict) (key : str) : option pyval :=
  match d with
  | [] => None
  | (k, v) :: d' => if str_eqb k key then Some v else dict_get d' key
  end.

(** [d[key] = value]: an existing key keeps its place. *)
Fixpoint dict_set (d : dict) (key : str) (value : pyval) : dict :=
  match d with
  | [] => [(key, value)]
  | (k, v) :: d' =>
      if str_eqb k key then (k, value) :: d' else (k, v) :: dict_set d' key value
  end.

(** [del d[key]]: [None] stands for the [KeyError] of a missing key. *)
Fixpoint dict_del (d : dict) (key : str) : option dict :=
  match d with
  | [] => None
  | (k, v) :: d' =>
      if str_eqb k key then Some d'
      else match dict_del d' key with
           | Some d'' => Some ((k, v) :: d'')
           | None => None
           end
  end.

Definition dict_keys (d : dict) : list str := map fst d.
Definition dict_len (d : dict) : nat := length d.

(** ** Exceptions *)

Inductive exn : Type :=
| KeyError (key : option str)   (* KeyError(key), or KeyError() *)
| RuntimeError
| ValueError
| BinasciiError          (* binascii.Error *)
| UnicodeEncodeError
| UnicodeDecodeError
| JSONDecodeError
| BadSignature           (* itsdangerous *)
| BadTimeSignature
| SignatureExpired
| NotAMapping            (* a value handed on by [typing.cast] that is no mapping *)
| Exhausted.             (* the fuel of a recursive definition ran out *)

Definition is_KeyError (e : exn) : bool :=
  match e with
  | KeyError _ => true
  | _ => false
  end.

(** [isinstance(e, ValueError)]. *)
Definition is_ValueError (e : exn) : bool :=
  match e with
  | ValueError | BinasciiError | UnicodeEncodeError | UnicodeDecodeError
  | JSONDecodeError => true
  | _ => false
  end.

(** [isinstance(e, BadSignature)]. *)
Definition is_BadSignature (e : exn) : bool :=
  match e with
  | BadSignature | BadTimeSignature | SignatureExpired => true
  | _ => false
  end.

Inductive result (A : Type) : Type :=
| Ok (a : A)
| Raise (e : exn).
Arguments Ok {A} a.
Arguments Raise {A} e.

Definition bind {A B : Type} (r : result A) (k : A -> result B) : result B :=
  match r with
  | Ok a => k a
  | Raise e => Raise e
  end.

Declare Scope result_scope.
Delimit Scope result_scope with result.
Notation "x <- r ;; k" := (bind r (fun x => k))
  (at level 61, r at next level, right associativity) : result_scope.

(** ** base.py: sessions backed by a store *)

Module Base.

(** The calls a session makes on its backend, in order. *)
Inductive call : Type :=
| NewSession
| LoadSession (sid : str)
| SaveSession (sid : str) (session : dict)
| KeepSession (sid : str).

Definition is_new (c : call) : bool :=
  match c with NewSession => true | _ => false end.
Definition is_load (c : call) : bool :=
  match c with LoadSession _ => true | _ => false end.
Definition is_save (c : call) : bool :=
  match c with SaveSession _ _ => true | _ => false end.
Definition is_keep (c : call) : bool :=
  match c with KeepSession _ => true | _ => false end.

Definition count (p : call -> bool) (l : list call) : nat :=
  length (filter p l).

(** [BaseSessionBackend]: the store behind the sessions.  [B] is the state of
    the backend object (its storage, its source of identifiers); a method
    takes it and hands it back. *)
Class BaseSessionBackend (B : Type) : Type := {
  get_max_age : B -> option Z;
  new_session : B -> (str * dict) * B;
  load_session : B -> str -> option dict * B;
  save_session : B -> str -> dict -> B;
  keep_session : B -> str -> B
}.

(** The default [new_session], for a backend that draws its identifiers from
    [new_session_id] (uuid4().hex). *)
Definition default_new_session {B : Type} (new_session_id : B -> str * B)
    (backend : B) : (str * dict) * B :=
  let '(sid, backend') := new_session_id backend in ((sid, []), backend').

(** The default [keep_session] does nothing. *)
Definition default_keep_session {B : Type} (backend : B) (sid : str) : B :=
  backend.

Record BaseBackendSession : Type := mkSession {
  _sid : option str;
  _accessed : bool;
  _modified : bool;
  __session : option dict
}.

Definition set_sid (self : BaseBackendSession) (sid : option str) :=
  mkSession sid (_accessed self) (_modified self) (__session self).
Definition set_accessed (self : BaseBackendSession) (v : bool) :=
  mkSession (_sid self) v (_modified self) (__session self).
Definition set_modified (self : BaseBackendSession) (v : bool) :=
  mkSession (_sid self) (_accessed self) v (__session self).
Definition set_session (self : BaseBackendSession) (s : option dict) :=
  mkSession (_sid self) (_accessed self) (_modified self) s.

Definition __init__ (sid : option str) : BaseBackendSession :=
  mkSession sid false false None.

Definition __sid_exists (self : BaseBackendSession) : bool :=
  match _sid self with
  | Some _ => true
  | None => false
  end.

Definition __session_exists (self : BaseBackendSession) : result bool :=
  match __session self with
  | Some _ =>
      if negb (__sid_exists self) then Raise RuntimeError (* shouldn't happen *)
      else Ok true
  | None => Ok false
  end.

Definition accessed (self : BaseBackendSession) : bool :=
  _accessed self || _modified self.

Definition modified (self : BaseBackendSession) : bool :=
  _modified self.

(** A materialized session has an identifier: the state in which
    [__session_exists] raises is never reached. *)
Definition sound (self : BaseBackendSession) : Prop :=
  forall m, __session self = Some m -> exists sid, _sid self = Some sid.

Section StandardBackendSession.

Context {B : Type} `{BaseSessionBackend B}.

(** The backend object a session refers to, with the record of the calls
    made on it. *)
Record World : Type := mkWorld {
  backend : B;
  calls : list call
}.

Definition max_age (w : World) : option Z := get_max_age (backend w).

Definition _open_session (w : World) : (str * dict) * World :=
  let '(r, backend') := new_session (backend w) in
  (r, mkWorld backend' (calls w ++ [NewSession])).

Definition _join_session (sid : str) (w : World) : option dict * World :=
  let '(r, backend') := load_session (backend w) sid in
  (r, mkWorld backend' (calls w ++ [LoadSession sid])).

Definition _commit_session (sid : str) (session : dict) (w : World) : World :=
  mkWorld (save_session (backend w) sid session)
          (calls w ++ [SaveSession sid session]).

Definition _touch_session (sid : str) (w : World) : World :=
  mkWorld (keep_session (backend w) sid) (calls w ++ [KeepSession sid]).

(** The [content] property. *)
Definition content (self : BaseBackendSession) (w : World)
    : result (option str) * BaseBackendSession * World :=
  match __session_exists self with
  | Raise e => (Raise e, self, w)
  | Ok true =>
      match _sid self, __session self with
      | Some sid, Some session =>
          (Ok (_sid self), self, _commit_session sid session w)
      | _, _ => (Ok (_sid self), self, w) (* excluded by __session_exists *)
      end
  | Ok false =>
      if __sid_exists self then
        match _sid self with
        | Some sid => (Ok (_sid self), self, _touch_session sid w)
        | None => (Ok (_sid self), self, w) (* excluded by __sid_exists *)
        end
      else (Ok (_sid self), self, w)
  end.

(** [__join_or_open_session] returns the mapping [self.__session] refers to. *)
Definition __join_or_open_session (self : BaseBackendSession) (w : World)
    : dict * BaseBackendSession * World :=
  match __session self with
  | Some session => (session, self, w)
  | None =>
      let '(self1, w1) :=
        match _sid self with
        | Some sid =>
            let '(r, w') := _join_session sid w in (set_session self r, w')
        | None => (self, w)
        end in
      match __session self1 with
      | Some session => (session, self1, w1)
      | None =>
          let '((sid, session), w2) := _open_session w1 in
          (session, set_session (set_sid self1 (Some sid)) (Some session), w2)
      end
  end.

Definition __getitem__ (key : str) (self : BaseBackendSession) (w : World)
    : result pyval * BaseBackendSession * World :=
  let self := set_accessed self true in
  if negb (__sid_exists self) then (Raise (KeyError (Some key)), self, w)
  else
    let '(session, self, w) := __join_or_open_session self w in
    match dict_get session key with
    | Some v => (Ok v, self, w)
    | None => (Raise (KeyError (Some key)), self, w)
    end.

Definition __setitem__ (key : str) (value : pyval)
    (self : BaseBackendSession) (w : World)
    : result unit * BaseBackendSession * World :=
  let self := set_accessed self true in
  let '(session, self, w) := __join_or_open_session self w in
  let self := set_session self (Some (dict_set session key value)) in
  (Ok tt, set_modified self true, w).

Definition __delitem__ (key : str) (self : BaseBackendSession) (w : World)
    : result unit * BaseBackendSession * World :=
  let self := set_accessed self true in
  if negb (__sid_exists self) then (Raise (KeyError (Some key)), self, w)
  else
    let '(session, self, w) := __join_or_open_session self w in
    match dict_del session key with
    | Some session' =>
        (Ok tt, set_modified (set_session self (Some session')) true, w)
    | None => (Raise (KeyError (Some key)), self, w)
    end.

(** [__len__]: the length of the joined mapping is computed and dropped. *)
Definition __len__ (self : BaseBackendSession) (w : World)
    : result nat * BaseBackendSession * World :=
  let self := set_accessed self true in
  if __sid_exists self then
    let '(session, self, w) := __join_or_open_session self w in
    let _ := dict_len session in
    (Ok 0, self, w)
  else (Ok 0, self, w).

(** [__iter__]: the keys the iterator yields. *)
Definition __iter__ (self : BaseBackendSession) (w : World)
    : result (list str) * BaseBackendSession * World :=
  let self := set_accessed self true in
  if __sid_exists self then
    let '(session, self, w) := __join_or_open_session self w in
    (Ok (dict_keys session), self, w)
  else (Ok [], self, w).

Definition clear (self : BaseBackendSession) (w : World)
    : result unit * BaseBackendSession * World :=
  match __session_exists self with
  | Raise e => (Raise e, self, w)
  | Ok true => (Ok tt, set_modified (set_session self (Some [])) true, w)
  | Ok false => (Ok tt, self, w)
  end.

(** *** Requests *)

(** What the application does with the session during one request; what an
    operation returns or raises is the application's business. *)
Inductive op : Type :=
| Getitem (key : str)
| Setitem (key : str) (value : pyval)
| Delitem (key : str)
| Len
| Iter
| Clear.

Definition run_op (o : op) (self : BaseBackendSession) (w : World)
    : BaseBackendSession * World :=
  match o with
  | Getitem key => let '(_, self, w) := __getitem__ key self w in (self, w)
  | Setitem key value =>
      let '(_, self, w) := __setitem__ key value self w in (self, w)
  | Delitem key => let '(_, self, w) := __delitem__ key self w in (self, w)
  | Len => let '(_, self, w) := __len__ self w in (self, w)
  | Iter => let '(_, self, w) := __iter__ self w in (self, w)
  | Clear => let '(_, self, w) := clear self w in (self, w)
  end.

Fixpoint run_ops (ops : list op) (self : BaseBackendSession) (w : World)
    : BaseBackendSession * World :=
  match ops with
  | [] => (self, w)
  | o :: ops' => let '(self, w) := run_op o self w in run_ops ops' self w
  end.

(** A key access: any of get, set, delete, length, iterate. *)
Definition is_key_access (o : op) : bool :=
  match o with
  | Clear => false
  | _ => true
  end.

(** The session of a request: made by the backend from the cookie's value
    (the backend's [__call__]), then used by the application. *)
Definition session_of_request (cookie : option str) (ops : list op) (b0 : B)
    : BaseBackendSession * World :=
  run_ops ops (__init__ cookie) (mkWorld b0 []).

(** The calls on the backend over a whole request, the terminal read of
    [content] included. *)
Definition request_calls (cookie : option str) (ops : list op) (b0 : B)
    : list call :=
  let '(self, w) := session_of_request cookie ops b0 in
  let '(_, _, w') := content self w in
  calls w'.

End StandardBackendSession.

End Base.

(** ** memory/backend.py *)

Module Memory.

(** What [pickle.dumps] makes of a mapping is kept as the mapping it
    unpickles to: [pickle.loads (pickle.dumps m)] is a fresh copy of [m]. *)
Definition pickled := dict.
Definition pickle_dumps (session : dict) : pickled := session.
Definition pickle_loads (data : pickled) : dict := data.

(** The backend object: its storage, and the identifiers [uuid4] is going to
    draw ([uuid4_hex n] is the n-th one drawn). *)
Record MemorySessionBackend : Type := mkBackend {
  __storage : list (str * pickled);
  uuid4_hex : nat -> str;
  drawn : nat
}.

Definition new_session_id (self : MemorySessionBackend)
    : str * MemorySessionBackend :=
  (uuid4_hex self (drawn self),
   mkBackend (__storage self) (uuid4_hex self) (S (drawn self))).

Fixpoint storage_get (d : list (str * pickled)) (sid : str) : option pickled :=
  match d with
  | [] => None
  | (k, v) :: d' => if str_eqb k sid then Some v else storage_get d' sid
  end.

Fixpoint storage_set (d : list (str * pickled)) (sid : str) (v : pickled)
    : list (str * pickled) :=
  match d with
  | [] => [(sid, v)]
  | (k, v') :: d' =>
      if str_eqb k sid then (k, v) :: d' else (k, v') :: storage_set d' sid v
  end.

Definition get_max_age (self : MemorySessionBackend) : option Z := None.

Definition load_session (self : MemorySessionBackend) (sid : str)
    : option dict * MemorySessionBackend :=
  match storage_get (__storage self) sid with
  | Some session => (Some (pickle_loads session), self)
  | None => (None, self)
  end.

Definition save_session (self : MemorySessionBackend) (sid : str)
    (session : dict) : MemorySessionBackend :=
  mkBackend (storage_set (__storage self) sid (pickle_dumps session))
            (uuid4_hex self) (drawn self).

#[export] Instance backend : Base.BaseSessionBackend MemorySessionBackend := {
  Base.get_max_age := get_max_age;
  Base.new_session := Base.default_new_session new_session_id;
  Base.load_session := load_session;
  Base.save_session := save_session;
  Base.keep_session := Base.default_keep_session
}.

End Memory.

(** ** cookie/base.py: sessions held in the cookie *)

Module CookieBase.

(** [BaseCookieSessionBackend]: [now] is the clock the backend reads
    ([time.time()], in whole seconds) when it signs or checks a signature. *)
Class BaseCookieSessionBackend (B : Type) : Type := {
  get_max_age : B -> option Z;
  save_content : B -> Z -> dict -> result str;
  load_content : B -> Z -> str -> result pyval
}.

Record StandardCookieBackendSession : Type := mkSession {
  __content : dict;
  __accessed : bool;
  __cleared : bool
}.

Definition set_content (self : StandardCookieBackendSession) (d : dict) :=
  mkSession d (__accessed self) (__cleared self).
Definition set_accessed (self : StandardCookieBackendSession) (v : bool) :=
  mkSession (__content self) v (__cleared self).
Definition set_cleared (self : StandardCookieBackendSession) (v : bool) :=
  mkSession (__content self) (__accessed self) v.

Definition accessed (self : StandardCookieBackendSession) : bool :=
  __accessed self.

Definition __getitem__ (key : str) (self : StandardCookieBackendSession)
    : result pyval * StandardCookieBackendSession :=
  let self := set_accessed self true in
  match dict_get (__content self) key with
  | Some v => (Ok v, self)
  | None => (Raise (KeyError (Some key)), self)
  end.

Definition __setitem__ (key : str) (value : pyval)
    (self : StandardCookieBackendSession)
    : result unit * StandardCookieBackendSession :=
  let self := set_accessed self true in
  let self := set_content self (dict_set (__content self) key value) in
  (Ok tt, set_cleared self false).

Definition __delitem__ (key : str) (self : StandardCookieBackendSession)
    : result unit * StandardCookieBackendSession :=
  let self := set_accessed self true in
  match dict_del (__content self) key with
  | Some d => (Ok tt, set_content self d)
  | None => (Raise (KeyError (Some key)), self)
  end.

Definition __len__ (self : StandardCookieBackendSession)
    : result nat * StandardCookieBackendSession :=
  let self := set_accessed self true in
  (Ok (dict_len (__content self)), self).

Definition __iter__ (self : StandardCookieBackendSession)
    : result (list str) * StandardCookieBackendSession :=
  let self := set_accessed self true in
  (Ok (dict_keys (__content self)), self).

(** [MutableMapping.popitem], inherited: it goes through the session's own
    [__iter__], [__getitem__] and [__delitem__]. *)
Definition popitem (self : StandardCookieBackendSession)
    : result (str * pyval) * StandardCookieBackendSession :=
  let '(r, self) := __iter__ self in
  match r with
  | Raise e => (Raise e, self)
  | Ok [] => (Raise (KeyError None), self)       (* StopIteration *)
  | Ok (key :: _) =>
      let '(r, self) := __getitem__ key self in
      match r with
      | Raise e => (Raise e, self)
      | Ok value =>
          let '(r, self) := __delitem__ key self in
          match r with
          | Raise e => (Raise e, self)
          | Ok _ => (Ok (key, value), self)
          end
      end
  end.

(** [MutableMapping.clear], inherited: [popitem] until it raises [KeyError].
    [None] when [fuel] rounds of the loop were not enough. *)
Fixpoint MutableMapping_clear (fuel : nat) (self : StandardCookieBackendSession)
    : option (result unit * StandardCookieBackendSession) :=
  match fuel with
  | O => None
  | S fuel' =>
      let '(r, self) := popitem self in
      match r with
      | Ok _ => MutableMapping_clear fuel' self
      | Raise e => if is_KeyError e then Some (Ok tt, self)
                   else Some (Raise e, self)
      end
  end.

Definition clear (fuel : nat) (self : StandardCookieBackendSession)
    : option (result unit * StandardCookieBackendSession) :=
  let self := set_accessed self true in
  match MutableMapping_clear fuel self with
  | None => None
  | Some (Raise e, self) => Some (Raise e, self)
  | Some (Ok _, self) => Some (Ok tt, set_cleared self true)
  end.

(** [dict(self)]: the keys [__iter__] yields, each looked up with
    [__getitem__]. *)
Fixpoint dict_items (keys : list str) (acc : dict)
    (self : StandardCookieBackendSession)
    : result dict * StandardCookieBackendSession :=
  match keys with
  | [] => (Ok acc, self)
  | key :: keys' =>
      let '(r, self) := __getitem__ key self in
      match r with
      | Raise e => (Raise e, self)
      | Ok value => dict_items keys' (dict_set acc key value) self
      end
  end.

Definition dict_of (self : StandardCookieBackendSession)
    : result dict * StandardCookieBackendSession :=
  let '(r, self) := __iter__ self in
  match r with
  | Raise e => (Raise e, self)
  | Ok keys => dict_items keys [] self
  end.

Section StandardCookieBackendSession.

Context {B : Type} `{BaseCookieSessionBackend B}.

(** The constructor.  The session is a mapping: a value [load_content]
    hands back that is none leaves it. *)
Definition __init__ (backend : B) (now : Z) (content : option str)
    : result StandardCookieBackendSession :=
  match content with
  | Some c =>
      match load_content backend now c with
      | Ok (PDict d) => Ok (mkSession d false false)
      | Ok _ => Raise NotAMapping
      | Raise e => Raise e
      end
  | None => Ok (mkSession [] false false)
  end.

Definition max_age (backend : B) : option Z := get_max_age backend.

(** The [content] property. *)
Definition content (backend : B) (now : Z)
    (self : StandardCookieBackendSession)
    : result (option str) * StandardCookieBackendSession :=
  if __cleared self then (Ok None, self)
  else
    let '(r, self) := dict_of self in
    match r with
    | Raise e => (Raise e, self)
    | Ok d =>
        match save_content backend now d with
        | Ok token => (Ok (Some token), self)
        | Raise e => (Raise e, self)
        end
    end.

End StandardCookieBackendSession.

(** What the application does with the session during one request. *)
Inductive op : Type :=
| Getitem (key : str)
| Setitem (key : str) (value : pyval)
| Delitem (key : str)
| Len
| Iter
| Clear.

Definition is_set (o : op) : bool :=
  match o with
  | Setitem _ _ => true
  | _ => false
  end.

(** [clear] is given the rounds it needs: one for each entry, and the one
    that finds the mapping empty. *)
Definition run_op (o : op) (self : StandardCookieBackendSession)
    : StandardCookieBackendSession :=
  match o with
  | Getitem key => snd (__getitem__ key self)
  | Setitem key value => snd (__setitem__ key value self)
  | Delitem key => snd (__delitem__ key self)
  | Len => snd (__len__ self)
  | Iter => snd (__iter__ self)
  | Clear =>
      match clear (S (dict_len (__content self))) self with
      | Some (_, self') => self'
      | None => self
      end
  end.

Definition run_ops (ops : list op) (self : StandardCookieBackendSession)
    : StandardCookieBackendSession :=
  fold_left (fun self o => run_op o self) ops self.

(** A run of writes, and the mapping they leave in an empty one. *)
Definition sets (writes : list (str * pyval)) : list op :=
  map (fun kv => Setitem (fst kv) (snd kv)) writes.

Definition written_on (d : dict) (writes : list (str * pyval)) : dict :=
  fold_left (fun d kv => dict_set d (fst kv) (snd kv)) writes d.

Definition written (writes : list (str * pyval)) : dict := written_on [] writes.

End CookieBase.

(** ** The codecs the pipeline calls *)

(** [str.encode("utf-8")] and [bytes.decode("utf-8")], both strict.  A code
    point is at most 0x10FFFF. *)
Module Utf8.

Local Open Scope N_scope.

Definition byte (n : N) : ascii := ascii_of_N n.

Definition is_surrogate (c : N) : bool := (0xD800 <=? c) && (c <=? 0xDFFF).

Definition encode_code_point (c : N) : result bytes :=
  if c <? 0x80 then Ok [byte c]
  else if c <? 0x800 then Ok [byte (0xC0 + c / 64); byte (0x80 + c mod 64)]
  else if c <? 0x10000 then
    if is_surrogate c then Raise UnicodeEncodeError
    else Ok [byte (0xE0 + c / 4096); byte (0x80 + (c / 64) mod 64);
             byte (0x80 + c mod 64)]
  else Ok [byte (0xF0 + c / 262144); byte (0x80 + (c / 4096) mod 64);
           byte (0x80 + (c / 64) mod 64); byte (0x80 + c mod 64)].

Fixpoint encode (s : str) : result bytes :=
  match s with
  | [] => Ok []
  | c :: s' =>
      match encode_code_point c, encode s' with
      | Ok x, Ok y => Ok (x ++ y)
      | Raise e, _ => Raise e
      | _, Raise e => Raise e
      end
  end.

(** A continuation byte, 10xxxxxx, within [lo, hi]. *)
Definition continuation (lo hi : N) (x : ascii) : option N :=
  let n := N_of_ascii x in
  if (lo <=? n) && (n <=? hi) then Some (n mod 64) else None.

Fixpoint decode (data : bytes) : result str :=
  match data with
  | [] => Ok []
  | x0 :: rest =>
      let n0 := N_of_ascii x0 in
      if n0 <? 0x80 then
        match decode rest with
        | Ok s => Ok (n0 :: s)
        | Raise e => Raise e
        end
      else if n0 <? 0xC2 then Raise UnicodeDecodeError
      else if n0 <? 0xE0 then
        match rest with
        | x1 :: rest' =>
            match continuation 0x80 0xBF x1, decode rest' with
            | Some n1, Ok s => Ok ((n0 mod 32) * 64 + n1 :: s)
            | _, _ => Raise UnicodeDecodeError
            end
        | _ => Raise UnicodeDecodeError
        end
      else if n0 <? 0xF0 then
        match rest with
        | x1 :: x2 :: rest' =>
            let lo := if n0 =? 0xE0 then 0xA0 else 0x80 in
            let hi := if n0 =? 0xED then 0x9F else 0xBF in
            match continuation lo hi x1, continuation 0x80 0xBF x2,
                  decode rest' with
            | Some n1, Some n2, Ok s =>
                Ok ((n0 mod 16) * 4096 + n1 * 64 + n2 :: s)
            | _, _, _ => Raise UnicodeDecodeError
            end
        | _ => Raise UnicodeDecodeError
        end
      else if n0 <? 0xF5 then
        match rest with
        | x1 :: x2 :: x3 :: rest' =>
            let lo := if n0 =? 0xF0 then 0x90 else 0x80 in
            let hi := if n0 =? 0xF4 then 0x8F else 0xBF in
            match continuation lo hi x1, continuation 0x80 0xBF x2,
                  continuation 0x80 0xBF x3, decode rest' with
            | Some n1, Some n2, Some n3, Ok s =>
                Ok ((n0 mod 8) * 262144 + n1 * 4096 + n2 * 64 + n3 :: s)
            | _, _, _, _ => Raise UnicodeDecodeError
            end
        | _ => Raise UnicodeDecodeError
        end
      else Raise UnicodeDecodeError
  end.

End Utf8.

(** [base64.urlsafe_b64encode] and [base64.urlsafe_b64decode]: the standard
    alphabet of [binascii], with [+ /] exchanged for [- _]; the decoder is
    [binascii.a2b_base64] as [b64decode] calls it, not strict: it passes over
    the characters outside the alphabet. *)
Module Base64.

Local Open Scope N_scope.

Definition table_b2a_base64 : bytes :=
  b "ABCDEFGHIJKLMNOPQRSTUVWXYZabcdefghijklmnopqrstuvwxyz0123456789+/".

Definition BASE64_PAD : ascii := "="%char.

Definition b2a_char (n : N) : ascii :=
  nth (N.to_nat n) table_b2a_base64 BASE64_PAD.

Fixpoint b2a_base64 (data : bytes) : bytes :=
  match data with
  | [] => []
  | [x] =>
      let x := N_of_ascii x in
      [b2a_char (x / 4); b2a_char ((x mod 4) * 16); BASE64_PAD; BASE64_PAD]
  | [x; y] =>
      let x := N_of_ascii x in
      let y := N_of_ascii y in
      [b2a_char (x / 4); b2a_char ((x mod 4) * 16 + y / 16);
       b2a_char ((y mod 16) * 4); BASE64_PAD]
  | x :: y :: z :: rest =>
      let x := N_of_ascii x in
      let y := N_of_ascii y in
      let z := N_of_ascii z in
      b2a_char (x / 4) :: b2a_char ((x mod 4) * 16 + y / 16)
        :: b2a_char ((y mod 16) * 4 + z / 64) :: b2a_char (z mod 64)
        :: b2a_base64 rest
  end.

Definition table_a2b_base64 (c : ascii) : option N :=
  let x := N_of_ascii c in
  if (65 <=? x) && (x <=? 90) then Some (x - 65)           (* A-Z *)
  else if (97 <=? x) && (x <=? 122) then Some (x - 71)     (* a-z *)
  else if (48 <=? x) && (x <=? 57) then Some (x + 4)       (* 0-9 *)
  else if x =? 43 then Some 62                             (* + *)
  else if x =? 47 then Some 63                             (* / *)
  else None.

(** The loop of [a2b_base64]: [quad_pos] is the place in the group of four,
    [leftchar] the bits left over, [pads] the run of [=] seen, [out] the
    bytes produced so far. *)
Fixpoint a2b_loop (data : bytes) (quad_pos : nat) (leftchar : N) (pads : nat)
    (out : bytes) : result bytes :=
  match data with
  | [] =>
      match quad_pos with
      | O => Ok out
      | _ => Raise BinasciiError
      end
  | c :: rest =>
      if Ascii.eqb c BASE64_PAD then
        if (2 <=? quad_pos)%nat then
          if (4 <=? quad_pos + S pads)%nat then Ok out
          else a2b_loop rest quad_pos leftchar (S pads) out
        else a2b_loop rest quad_pos leftchar pads out
      else
        match table_a2b_base64 c with
        | None => a2b_loop rest quad_pos leftchar pads out
        | Some this_ch =>
            match quad_pos with
            | 0%nat => a2b_loop rest 1 this_ch 0 out
            | 1%nat =>
                a2b_loop rest 2 (this_ch mod 16) 0
                  (out ++ [ascii_of_N (leftchar * 4 + this_ch / 16)])
            | 2%nat =>
                a2b_loop rest 3 (this_ch mod 4) 0
                  (out ++ [ascii_of_N (leftchar * 16 + this_ch / 4)])
            | _ =>
                a2b_loop rest 0 0 0
                  (out ++ [ascii_of_N (leftchar * 64 + this_ch)])
            end
        end
  end.

Definition a2b_base64 (data : bytes) : result bytes :=
  a2b_loop data 0 0 0 [].

(** [bytes.translate] with a table that exchanges [x] for [y]. *)
Definition translate (x y : ascii) (c : ascii) : ascii :=
  if Ascii.eqb c x then y else c.

Definition _urlsafe_encode_translation (c : ascii) : ascii :=
  translate "/"%char "_"%char (translate "+"%char "-"%char c).

Definition _urlsafe_decode_translation (c : ascii) : ascii :=
  translate "_"%char "/"%char (translate "-"%char "+"%char c).

Definition urlsafe_b64encode (s : bytes) : bytes :=
  map _urlsafe_encode_translation (b2a_base64 s).

Definition urlsafe_b64decode (s : bytes) : result bytes :=
  a2b_base64 (map _urlsafe_decode_translation s).

(** The last group of the encoding of a single byte [x], with [k] in the
    four bits that are left over; [b2a_base64] writes it with [k = 0]. *)
Definition last_group (x : ascii) (k : N) : bytes :=
  [b2a_char (N_of_ascii x / 4); b2a_char (N_of_ascii x mod 4 * 16 + k);
   BASE64_PAD; BASE64_PAD].

(** The check that six bits come back from their character of the URL-safe
    alphabet, which is no padding and is ASCII. *)
Definition sextet_ok (n : N) : bool :=
  match table_a2b_base64 (_urlsafe_decode_translation
                            (_urlsafe_encode_translation (b2a_char n))) with
  | Some m => m =? n
  | None => false
  end
  && negb (Ascii.eqb (_urlsafe_decode_translation
                        (_urlsafe_encode_translation (b2a_char n))) BASE64_PAD)
  && (N_of_ascii (_urlsafe_encode_translation (b2a_char n)) <? 128).

End Base64.

(** [json.dumps] and [json.loads] with their defaults ([ensure_ascii], a
    space behind each comma and colon, the scanner of the [_json] module),
    and the two functions of cookie/backend.py over them. *)
Module Json.

Local Open Scope N_scope.

(** *** json.dumps *)

Fixpoint str_of_uint (d : Decimal.uint) : str :=
  match d with
  | Decimal.Nil => []
  | Decimal.D0 d => 48 :: str_of_uint d
  | Decimal.D1 d => 49 :: str_of_uint d
  | Decimal.D2 d => 50 :: str_of_uint d
  | Decimal.D3 d => 51 :: str_of_uint d
  | Decimal.D4 d => 52 :: str_of_uint d
  | Decimal.D5 d => 53 :: str_of_uint d
  | Decimal.D6 d => 54 :: str_of_uint d
  | Decimal.D7 d => 55 :: str_of_uint d
  | Decimal.D8 d => 56 :: str_of_uint d
  | Decimal.D9 d => 57 :: str_of_uint d
  end.

(** [int.__repr__]. *)
Definition int_repr (z : Z) : str :=
  match Z.to_int z with
  | Decimal.Pos d => str_of_uint d
  | Decimal.Neg d => 45 :: str_of_uint d
  end.

Definition hex_digit (n : N) : N := if n <? 10 then 48 + n else 87 + n.

(** A backslash, u, and four hex digits in lower case. *)
Definition u_escape (n : N) : str :=
  [92; 117; hex_digit (n / 4096); hex_digit ((n / 256) mod 16);
   hex_digit ((n / 16) mod 16); hex_digit (n mod 16)].

Definition escape_char (c : N) : str :=
  if c =? 34 then [92; 34]                    (* double quote *)
  else if c =? 92 then [92; 92]               (* backslash *)
  else if c =? 10 then [92; 110]              (* newline *)
  else if c =? 13 then [92; 114]              (* carriage return *)
  else if c =? 9 then [92; 116]               (* tab *)
  else if c =? 12 then [92; 102]              (* form feed *)
  else if c =? 8 then [92; 98]                (* backspace *)
  else if (32 <=? c) && (c <=? 126) then [c]
  else if c <? 0x10000 then u_escape c
  else
    let n := c - 0x10000 in
    u_escape (0xD800 + (n / 1024) mod 1024) ++ u_escape (0xDC00 + n mod 1024).

Definition encode_basestring_ascii (s : str) : str :=
  34 :: flat_map escape_char s ++ [34].

Fixpoint json_dumps (v : pyval) : str :=
  match v with
  | PNone => u "null"
  | PBool true => u "true"
  | PBool false => u "false"
  | PInt z => int_repr z
  | PFloat literal => literal
  | PStr s => encode_basestring_ascii s
  | PList items =>
      91 :: (fix join (l : list pyval) : str :=
               match l with
               | [] => []
               | [x] => json_dumps x
               | x :: l' => json_dumps x ++ 44 :: 32 :: join l'
               end) items ++ [93]
  | PDict entries =>
      123 :: (fix join (l : list (str * pyval)) : str :=
                match l with
                | [] => []
                | [(k, x)] =>
                    encode_basestring_ascii k ++ 58 :: 32 :: json_dumps x
                | (k, x) :: l' =>
                    encode_basestring_ascii k ++ 58 :: 32 :: json_dumps x
                      ++ 44 :: 32 :: join l'
                end) entries ++ [125]
  end.

(** *** json.loads *)

Definition is_whitespace (c : N) : bool :=
  (c =? 32) || (c =? 9) || (c =? 10) || (c =? 13).

Fixpoint skip_whitespace (s : str) : str :=
  match s with
  | c :: s' => if is_whitespace c then skip_whitespace s' else s
  | [] => []
  end.

Definition is_digit (c : N) : bool := (48 <=? c) && (c <=? 57).

Definition hex_value (c : N) : option N :=
  if (48 <=? c) && (c <=? 57) then Some (c - 48)
  else if (97 <=? c) && (c <=? 102) then Some (c - 87)
  else if (65 <=? c) && (c <=? 70) then Some (c - 55)
  else None.

(** Four hex digits, and what follows them. *)
Definition hex4 (s : str) : option (N * str) :=
  match s with
  | x3 :: x2 :: x1 :: x0 :: rest =>
      match hex_value x3, hex_value x2, hex_value x1, hex_value x0 with
      | Some d3, Some d2, Some d1, Some d0 =>
          Some (((d3 * 16 + d2) * 16 + d1) * 16 + d0, rest)
      | _, _, _, _ => None
      end
  | _ => None
  end.

Definition is_high_surrogate (c : N) : bool := (0xD800 <=? c) && (c <=? 0xDBFF).
Definition is_low_surrogate (c : N) : bool := (0xDC00 <=? c) && (c <=? 0xDFFF).
Definition join_surrogates (hi lo : N) : N :=
  0x10000 + (hi - 0xD800) * 1024 + (lo - 0xDC00).

(** [s] behind the character [c], when it begins with it. *)
Definition behind (c : N) (s : str) : option str :=
  match s with
  | c' :: rest => if c' =? c then Some rest else None
  | [] => None
  end.

(** The character a backslash stands before. *)
Definition unescape (c : N) : option N :=
  if c =? 34 then Some 34
  else if c =? 92 then Some 92
  else if c =? 47 then Some 47
  else if c =? 98 then Some 8
  else if c =? 102 then Some 12
  else if c =? 110 then Some 10
  else if c =? 114 then Some 13
  else if c =? 116 then Some 9
  else None.

(** [scanstring], strict, from behind the opening quote: the string and what
    follows its closing quote. *)
Fixpoint scanstring (fuel : nat) (s : str) (acc : str) : result (str * str) :=
  match fuel with
  | O => Raise Exhausted
  | S fuel =>
      match s with
      | [] => Raise JSONDecodeError
      | c :: s1 =>
          if c =? 34 then Ok (acc, s1)
          else if c =? 92 then
            match s1 with
            | [] => Raise JSONDecodeError
            | e :: s2 =>
                if e =? 117 then
                  match hex4 s2 with
                  | None => Raise JSONDecodeError
                  | Some (c1, s3) =>
                      if is_high_surrogate c1 && (7 <=? length s3)%nat then
                        match behind 92 s3 with
                        | None => scanstring fuel s3 (acc ++ [c1])
                        | Some s3' =>
                            match behind 117 s3' with
                            | None => scanstring fuel s3 (acc ++ [c1])
                            | Some s4 =>
                                match hex4 s4 with
                                | None => Raise JSONDecodeError
                                | Some (c2, s5) =>
                                    if is_low_surrogate c2 then
                                      scanstring fuel s5
                                        (acc ++ [join_surrogates c1 c2])
                                    else scanstring fuel s3 (acc ++ [c1])
                                end
                            end
                        end
                      else scanstring fuel s3 (acc ++ [c1])
                  end
                else
                  match unescape e with
                  | Some c' => scanstring fuel s2 (acc ++ [c'])
                  | None => Raise JSONDecodeError
                  end
            end
          else if c <? 32 then Raise JSONDecodeError
          else scanstring fuel s1 (acc ++ [c])
      end
  end.

Fixpoint span_digits (s : str) : str * str :=
  match s with
  | c :: s' =>
      if is_digit c then let '(ds, rest) := span_digits s' in (c :: ds, rest)
      else ([], s)
  | [] => ([], [])
  end.

(** The number a run of decimal digits writes. *)
Definition digits_value (ds : str) : N :=
  fold_left (fun acc c => acc * 10 + (c - 48)) ds 0.

(** The integer part: a single [0], or a digit from 1 to 9 and the digits
    behind it. *)
Definition match_integer (s : str) : option (str * str) :=
  match s with
  | c :: s' =>
      if c =? 48 then Some ([c], s')
      else if is_digit c then
        let '(ds, rest) := span_digits s' in Some (c :: ds, rest)
      else None
  | [] => None
  end.

(** [\.\d+] *)
Definition match_frac (s : str) : str * str :=
  match behind 46 s with
  | Some (c :: s') =>
      if is_digit c then
        let '(ds, rest) := span_digits s' in (46 :: c :: ds, rest)
      else ([], s)
  | _ => ([], s)
  end.

(** [[eE][-+]?\d+] *)
Definition match_exp (s : str) : str * str :=
  match s with
  | e :: s' =>
      if (e =? 101) || (e =? 69) then
        let '(sign, s'') :=
          match s' with
          | c :: t => if (c =? 45) || (c =? 43) then ([c], t) else ([], s')
          | [] => ([], s')
          end in
        match span_digits s'' with
        | ([], _) => ([], s)
        | (ds, rest) => (e :: sign ++ ds, rest)
        end
      else ([], s)
  | [] => ([], s)
  end.

(** [-?] *)
Definition match_sign (s : str) : str * str :=
  match behind 45 s with
  | Some s' => ([45], s')
  | None => ([], s)
  end.

Definition match_number (s : str) : option (pyval * str) :=
  let '(sign, s1) := match_sign s in
  match match_integer s1 with
  | None => None
  | Some (integer, s2) =>
      let '(frac, s3) := match_frac s2 in
      let '(exp, s4) := match_exp s3 in
      match frac, exp with
      | [], [] =>
          let n := Z.of_N (digits_value integer) in
          Some (PInt (match sign with [] => n | _ => (- n)%Z end), s4)
      | _, _ => Some (PFloat (sign ++ integer ++ frac ++ exp), s4)
      end
  end.

(** [s] behind the prefix [p], when it begins with it. *)
Fixpoint strip_prefix (p s : str) : option str :=
  match p, s with
  | [], _ => Some s
  | x :: p', y :: s' => if x =? y then strip_prefix p' s' else None
  | _ :: _, [] => None
  end.

(** [scan_once], with the loops of [_parse_array] and [_parse_object]:
    [array_items] and [object_items] stand before a value and a key. *)
Fixpoint scan_once (fuel : nat) (s : str) : result (pyval * str) :=
  match fuel with
  | O => Raise Exhausted
  | S fuel =>
      match s with
      | [] => Raise JSONDecodeError
      | c :: s1 =>
          if c =? 34 then
            match scanstring (S (length s1)) s1 [] with
            | Ok (v, rest) => Ok (PStr v, rest)
            | Raise e => Raise e
            end
          else if c =? 123 then
            let s2 := skip_whitespace s1 in
            match behind 125 s2 with
            | Some rest => Ok (PDict [], rest)
            | None => object_items fuel s2 []
            end
          else if c =? 91 then
            let s2 := skip_whitespace s1 in
            match behind 93 s2 with
            | Some rest => Ok (PList [], rest)
            | None => array_items fuel s2 []
            end
          else
            match strip_prefix (u "null") s, strip_prefix (u "true") s,
                  strip_prefix (u "false") s with
            | Some rest, _, _ => Ok (PNone, rest)
            | _, Some rest, _ => Ok (PBool true, rest)
            | _, _, Some rest => Ok (PBool false, rest)
            | None, None, None =>
                match strip_prefix (u "NaN") s, strip_prefix (u "Infinity") s,
                      strip_prefix (u "-Infinity") s with
                | Some rest, _, _ => Ok (PFloat (u "NaN"), rest)
                | _, Some rest, _ => Ok (PFloat (u "Infinity"), rest)
                | _, _, Some rest => Ok (PFloat (u "-Infinity"), rest)
                | None, None, None =>
                    match match_number s with
                    | Some r => Ok r
                    | None => Raise JSONDecodeError
                    end
                end
            end
      end
  end
with array_items (fuel : nat) (s : str) (acc : list pyval)
    : result (pyval * str) :=
  match fuel with
  | O => Raise Exhausted
  | S fuel =>
      match scan_once fuel s with
      | Raise e => Raise e
      | Ok (v, s1) =>
          let s2 := skip_whitespace s1 in
          match behind 93 s2, behind 44 s2 with
          | Some rest, _ => Ok (PList (acc ++ [v]), rest)
          | None, Some s3 =>
              array_items fuel (skip_whitespace s3) (acc ++ [v])
          | None, None => Raise JSONDecodeError
          end
      end
  end
with object_items (fuel : nat) (s : str) (acc : dict) : result (pyval * str) :=
  match fuel with
  | O => Raise Exhausted
  | S fuel =>
      match behind 34 s with
      | None => Raise JSONDecodeError
      | Some s1 =>
          match scanstring (S (length s1)) s1 [] with
          | Raise e => Raise e
          | Ok (key, s2) =>
              match behind 58 (skip_whitespace s2) with
              | None => Raise JSONDecodeError
              | Some s3 =>
                  match scan_once fuel (skip_whitespace s3) with
                  | Raise e => Raise e
                  | Ok (v, s4) =>
                      let s5 := skip_whitespace s4 in
                      match behind 125 s5, behind 44 s5 with
                      | Some rest, _ => Ok (PDict (dict_set acc key v), rest)
                      | None, Some s6 =>
                          object_items fuel (skip_whitespace s6)
                                       (dict_set acc key v)
                      | None, None => Raise JSONDecodeError
                      end
                  end
              end
          end
      end
  end.

(** [json.loads] of a str: no byte order mark, one value, and nothing but
    whitespace around it. *)
Definition json_loads (s : str) : result pyval :=
  match behind 0xFEFF s with
  | Some _ => Raise JSONDecodeError
  | None =>
      match scan_once (2 * length s + 2) (skip_whitespace s) with
      | Raise e => Raise e
      | Ok (v, rest) =>
          match skip_whitespace rest with
          | [] => Ok v
          | _ => Raise JSONDecodeError
          end
      end
  end.

(** *** The values that are written and read back as they are *)

(** A Unicode scalar value: a code point that is no surrogate. *)
Definition is_scalar (c : N) : bool :=
  (c <? 0x110000) && negb ((0xD800 <=? c) && (c <=? 0xDFFF)).

Definition valid_text (s : str) : Prop := forallb is_scalar s = true.

(** A run of decimal digits, at least one. *)
Definition digits_text (ds : str) : Prop :=
  ds <> [] /\ forallb is_digit ds = true.

(** The parts of the text of a finite float: a minus sign or none, an
    integer part without a needless zero in front, a fraction or none, an
    exponent or none. *)
Definition sign_text (s : str) : Prop := s = [] \/ s = [45].

Definition integer_text (s : str) : Prop :=
  s = [48] \/
  exists c ds, s = c :: ds /\ 49 <= c <= 57 /\ forallb is_digit ds = true.

Definition frac_text (s : str) : Prop :=
  s = [] \/ exists ds, s = 46 :: ds /\ digits_text ds.

Definition exp_text (s : str) : Prop :=
  s = [] \/
  exists e sg ds, s = e :: sg ++ ds /\ (e = 101 \/ e = 69) /\
                  (sg = [] \/ sg = [45] \/ sg = [43]) /\ digits_text ds.

(** The text of a finite float has a fraction, an exponent, or both. *)
Inductive float_text : str -> Prop :=
| float_text_parts (sign integer frac exp : str) :
    sign_text sign -> integer_text integer -> frac_text frac -> exp_text exp ->
    frac <> [] \/ exp <> [] ->
    float_text (sign ++ integer ++ frac ++ exp).

(** [None], booleans, integers, finite floats, text, lists and dicts with
    text keys, each key once. *)
Unset Elimination Schemes.
Inductive json_exact : pyval -> Prop :=
| exact_none : json_exact PNone
| exact_bool (v : bool) : json_exact (PBool v)
| exact_int (z : Z) : json_exact (PInt z)
| exact_float (literal : str) : float_text literal -> json_exact (PFloat literal)
| exact_str (s : str) : valid_text s -> json_exact (PStr s)
| exact_list (items : list pyval) :
    Forall json_exact items -> json_exact (PList items)
| exact_dict (entries : list (str * pyval)) :
    NoDup (map fst entries) ->
    Forall (fun kv => valid_text (fst kv) /\ json_exact (snd kv)) entries ->
    json_exact (PDict entries).
Set Elimination Schemes.

(** What may stand behind a value inside a document: nothing, a comma or a
    closing bracket. *)
Definition follow (rest : str) : bool :=
  match rest with
  | [] => true
  | c :: _ => (c =? 44) || (c =? 93) || (c =? 125)
  end.

(** The characters a written value begins with. *)
Definition value_start (c : N) : bool :=
  existsb (N.eqb c)
    [110; 116; 102; 45; 48; 49; 50; 51; 52; 53; 54; 55; 56; 57; 34; 91; 123].

(** The two loops of [json_dumps]. *)
Fixpoint join_items (l : list pyval) : str :=
  match l with
  | [] => []
  | [x] => json_dumps x
  | x :: l' => json_dumps x ++ 44 :: 32 :: join_items l'
  end.

Fixpoint join_entries (l : list (str * pyval)) : str :=
  match l with
  | [] => []
  | [(k, x)] => encode_basestring_ascii k ++ 58 :: 32 :: json_dumps x
  | (k, x) :: l' =>
      encode_basestring_ascii k ++ 58 :: 32 :: json_dumps x
        ++ 44 :: 32 :: join_entries l'
  end.

(** What is to be shown of a value: written and followed by [rest], it is
    read back, with [rest] left over, by any fuel above its length. *)
Definition reads_back (v : pyval) : Prop :=
  forall fuel rest, (length (json_dumps v) < fuel)%nat -> follow rest = true ->
  scan_once fuel (json_dumps v ++ rest) = Ok (v, rest).

(** What a scanner may end with: a value and a rest shorter than its input,
    or a JSONDecodeError. *)
Definition ends {A : Type} (s : str) (r : result (A * str)) : Prop :=
  match r with
  | Ok (_, rest) => (length rest < length s)%nat
  | Raise e => e = JSONDecodeError
  end.

Definition ascii_text (s : str) : Prop := Forall (fun c => c < 128) s.

(** *** The serializer and deserializer of cookie/backend.py *)

Definition json_dump_bytes (content : dict) : result bytes :=
  Utf8.encode (json_dumps (PDict content)).

Definition json_load_bytes (content : bytes) : result pyval :=
  match Utf8.decode content with
  | Ok s => json_loads s
  | Raise e => Raise e
  end.

End Json.

(** ** cookie/backend.py *)

Module CookieBackend.

Import Base64.
Local Open Scope result_scope.

(** The backend object: its attributes, and the two methods a subclass
    overrides. *)
Record CookieSessionBackend : Type := mkBackend {
  __max_age : option Z;
  __serializer : dict -> result bytes;
  __deserializer : bytes -> result pyval;
  sign_content : Z -> bytes -> result bytes;
  unsign_content : Z -> bytes -> result bytes
}.

(** [CookieSessionBackend(max_age, serializer, deserializer)]: [sign_content]
    and [unsign_content] return the bytes unchanged. *)
Definition __init__ (max_age : option Z)
    (serializer : dict -> result bytes)
    (deserializer : bytes -> result pyval) : CookieSessionBackend :=
  mkBackend max_age serializer deserializer
            (fun _ content => Ok content) (fun _ content => Ok content).

Definition get_max_age (self : CookieSessionBackend) : option Z :=
  __max_age self.

Definition save_content (self : CookieSessionBackend) (now : Z)
    (content : dict) : result str :=
  serialized <- __serializer self content ;;
  signed <- sign_content self now serialized ;;
  let encoded := urlsafe_b64encode signed in
  Utf8.decode encoded.

(** [load_content]: the three steps in the [try], and the [except] clause for
    [UnicodeDecodeError] and [ValueError]. *)
Definition load_content (self : CookieSessionBackend) (now : Z)
    (content : str) : result pyval :=
  let attempt :=
    encoded <- Utf8.encode content ;;
    decoded <- urlsafe_b64decode encoded ;;
    unsigned <- unsign_content self now decoded ;;
    __deserializer self unsigned in
  match attempt with
  | Ok deserialized => Ok deserialized
  | Raise e => if is_ValueError e then Ok (PDict []) else Raise e
  end.

#[export] Instance backend
    : CookieBase.BaseCookieSessionBackend CookieSessionBackend := {
  CookieBase.get_max_age := get_max_age;
  CookieBase.save_content := save_content;
  CookieBase.load_content := load_content
}.

End CookieBackend.

(** ** signedcookie/backend.py *)

Module SignedCookie.

(** [itsdangerous.TimestampSigner], made from the secret key: [sign] at the
    time [now]; [unsign] at the time [now] with [max_age]. *)
Record TimestampSigner : Type := mkSigner {
  sign : Z -> bytes -> bytes;
  unsign : Z -> option Z -> bytes -> result bytes
}.

Definition sign_content (timestamper : TimestampSigner) (now : Z)
    (content : bytes) : result bytes :=
  Ok (sign timestamper now content).

Definition unsign_content (timestamper : TimestampSigner)
    (max_age : option Z) (now : Z) (content : bytes) : result bytes :=
  match unsign timestamper now max_age content with
  | Ok v => Ok v
  | Raise e => if is_BadSignature e then Raise ValueError else Raise e
  end.

(** [SignedCookieSessionBackend(secret_key, max_age, serializer,
    deserializer)], with the signer its secret key makes. *)
Definition __init__ (timestamper : TimestampSigner) (max_age : option Z)
    (serializer : dict -> result bytes)
    (deserializer : bytes -> result pyval)
    : CookieBackend.CookieSessionBackend :=
  CookieBackend.mkBackend max_age serializer deserializer
    (sign_content timestamper)
    (unsign_content timestamper max_age).

(** What the backend relies on from [itsdangerous]: [unsign] raises nothing
    but [BadSignature] and its subclasses; it returns what was signed, unless
    [max_age] is given and the signature is older, or younger than now; past
    [max_age] it raises [SignatureExpired].  Times are seconds since the
    epoch. *)
Record signer_contract (timestamper : TimestampSigner) : Prop := {
  unsign_raises : forall now max_age signed e,
    unsign timestamper now max_age signed = Raise e -> is_BadSignature e = true;
  unsign_fresh : forall t now max_age value,
    (0 <= t)%Z ->
    (forall a, max_age = Some a -> (0 <= now - t <= a)%Z) ->
    unsign timestamper now max_age (sign timestamper t value) = Ok value;
  unsign_expired : forall t now a value,
    (0 <= t)%Z -> (a < now - t)%Z ->
    unsign timestamper now (Some a) (sign timestamper t value) =
      Raise SignatureExpired
}.

(** A signer in the manner of [itsdangerous.TimestampSigner]: the value, the
    time of signing and the signature, joined by a full stop.  [digest]
    stands for the keyed hash of the secret key; its bytes are written in
    hex, the time in decimal digits. *)
Section Signer.

Variable digest : bytes -> bytes.

Definition sep : ascii := "."%char.

Definition no_sep (s : bytes) : Prop := Forall (fun c => c <> sep) s.

Definition bytes_eqb (x y : bytes) : bool :=
  if list_eq_dec ascii_dec x y then true else false.

(** [rsplit(sep, 1)]: around the last separator. *)
Fixpoint rsplit (s : bytes) : option (bytes * bytes) :=
  match s with
  | [] => None
  | c :: s' =>
      match rsplit s' with
      | Some (x, y) => Some (c :: x, y)
      | None => if Ascii.eqb c sep then Some ([], s') else None
      end
  end.

Definition hex (data : bytes) : bytes :=
  flat_map (fun c => [ascii_of_N (Json.hex_digit (N_of_ascii c / 16));
                      ascii_of_N (Json.hex_digit (N_of_ascii c mod 16))]) data.

Definition get_signature (value : bytes) : bytes := hex (digest value).

Definition timestamp_text (t : Z) : bytes := map ascii_of_N (Json.int_repr t).

Definition parse_timestamp (ts : bytes) : option Z :=
  let s := map N_of_ascii ts in
  match s with
  | [] => None
  | _ => if forallb Json.is_digit s then Some (Z.of_N (Json.digits_value s))
         else None
  end.

Definition model_sign (now : Z) (value : bytes) : bytes :=
  let value := value ++ sep :: timestamp_text now in
  value ++ sep :: get_signature value.

Definition model_unsign (now : Z) (max_age : option Z) (signed_value : bytes)
    : result bytes :=
  match rsplit signed_value with
  | None => Raise BadSignature
  | Some (value, sig) =>
      let verified := bytes_eqb sig (get_signature value) in
      match rsplit value with
      | None => if verified then Raise BadTimeSignature else Raise BadSignature
      | Some (payload, ts_bytes) =>
          if negb verified then Raise BadTimeSignature
          else
            match parse_timestamp ts_bytes with
            | None => Raise BadTimeSignature
            | Some ts =>
                match max_age with
                | Some a =>
                    let age := (now - ts)%Z in
                    if (a <? age)%Z then Raise SignatureExpired
                    else if (age <? 0)%Z then Raise SignatureExpired
                    else Ok payload
                | None => Ok payload
                end
            end
      end
  end.

Definition model_signer : TimestampSigner := mkSigner model_sign model_unsign.

End Signer.

End SignedCookie.

(** ** Sessions and tokens to run the definitions on *)

Module Example.

(** A store that knows one session. *)
Definition sid1 : str := u "5f1d7c".

Definition stored : dict := [(u "user", PStr (u "ada")); (u "visits", PInt 2)].

Definition memory : Memory.MemorySessionBackend :=
  Memory.mkBackend [(sid1, Memory.pickle_dumps stored)] (fun _ => u "a81e02") 0.

(** The cookie backend with its defaults but for [max_age]. *)
Definition plain : CookieBackend.CookieSessionBackend :=
  CookieBackend.__init__ (Some 3600%Z) Json.json_dump_bytes Json.json_load_bytes.

(** A signed cookie backend that lets a cookie live one second; the digest
    is a checksum over the key and the value. *)
Definition digest (value : bytes) : bytes :=
  [ascii_of_N (fold_left (fun acc c => (acc * 31 + N_of_ascii c) mod 256)%N
                         (b "secret" ++ value) 7%N)].

Definition timestamper : SignedCookie.TimestampSigner :=
  SignedCookie.model_signer digest.

Definition signed : CookieBackend.CookieSessionBackend :=
  SignedCookie.__init__ timestamper (Some 1%Z)
                        Json.json_dump_bytes Json.json_load_bytes.

Definition cart : dict := [(u "a", PInt 1)].

(** A mapping with a value of each kind; the name is not ASCII text. *)
Definition profile : dict :=
  [(u "name", PStr [90; 111; 235]%N);
   (u "seen", PList [PInt 3%Z; PInt (-7)%Z; PFloat (u "1.5e-05"); PBool true; PNone]);
   (u "prefs", PDict [(u "theme", PStr (u "dark")); (u "tabs", PList [])])].

(** The token of [cart] signed at the time 1000, and at 1001. *)
Definition token1000 : str := u "eyJhIjogMX0uMTAwMC43Yw==".
Definition token1001 : str := u "eyJhIjogMX0uMTAwMS43ZA==".

(** [token] with the bits of [mask] flipped in its [i]-th character. *)
Fixpoint flip (i : nat) (mask : N) (token : str) : str :=
  match token, i with
  | [], _ => []
  | c :: token', O => N.lxor c mask :: token'
  | c :: token', S i' => c :: flip i' mask token'
  end.

End Example.

(** * Properties *)

(** [lia] is to reason about division and remainder by a constant. *)
Ltac Zify.zify_post_hook ::= Z.to_euclidean_division_equations.

Lemma str_eqb_refl (s : str) : str_eqb s s = true.
Proof. unfold str_eqb. destruct (str_eq_dec s s); congruence. Qed.

Lemma str_eqb_eq (s t : str) : str_eqb s t = true <-> s = t.
Proof. unfold str_eqb. destruct (str_eq_dec s t); split; congruence. Qed.

Lemma str_eqb_neq (s t : str) : str_eqb s t = false <-> s <> t.
Proof. unfold str_eqb. destruct (str_eq_dec s t); split; congruence. Qed.

(** ** The store-backed session *)

Section BaseProperties.

Import Base.
Context {B : Type} `{BaseSessionBackend B}.

Lemma count_app (p : call -> bool) (l1 l2 : list call) :
  count p (l1 ++ l2) = count p l1 + count p l2.
Proof. unfold count. now rewrite filter_app, length_app. Qed.

Lemma init_sound (cookie : option str) : sound (__init__ cookie).
Proof. intros m Hm. discriminate Hm. Qed.

(** What [__join_or_open_session] does, case by case. *)
Lemma join_or_open_cases (self : BaseBackendSession) (w : World) :
  match __session self with
  | Some m => __join_or_open_session self w = (m, self, w)
  | None =>
      match _sid self with
      | Some sid =>
          match load_session (backend w) sid with
          | (Some m, b1) =>
              __join_or_open_session self w =
                (m, set_session self (Some m),
                 mkWorld b1 (calls w ++ [LoadSession sid]))
          | (None, b1) =>
              let '((sid', m), b2) := new_session b1 in
              __join_or_open_session self w =
                (m, set_session (set_sid self (Some sid')) (Some m),
                 mkWorld b2 ((calls w ++ [LoadSession sid]) ++ [NewSession]))
          end
      | None =>
          let '((sid', m), b2) := new_session (backend w) in
          __join_or_open_session self w =
            (m, set_session (set_sid self (Some sid')) (Some m),
             mkWorld b2 (calls w ++ [NewSession]))
      end
  end.
Proof.
  unfold __join_or_open_session, _join_session, _open_session.
  destruct self as [sid a md [m|]]; simpl; [reflexivity|].
  destruct sid as [sid|]; simpl.
  - destruct (load_session (backend w) sid) as [[m|] b1]; simpl; [reflexivity|].
    destruct (new_session b1) as [[sid' m] b2]; reflexivity.
  - destruct (new_session (backend w)) as [[sid' m] b2]; reflexivity.
Qed.

(** After [__join_or_open_session] the session is materialized, with an
    identifier, and the mapping returned is the one it holds. *)
Lemma join_or_open_materialized (self : BaseBackendSession) (w : World) :
  sound self ->
  forall m self' w', __join_or_open_session self w = (m, self', w') ->
  __session self' = Some m /\ (exists sid, _sid self' = Some sid) /\
  _accessed self' = _accessed self /\ _modified self' = _modified self.
Proof.
  intros Hs m self' w' E.
  pose proof (join_or_open_cases self w) as C.
  destruct (__session self) as [m0|] eqn:Em.
  - rewrite C in E. injection E as <- <- <-.
    destruct (Hs _ Em) as [sid Hsid]. eauto.
  - destruct (_sid self) as [sid|] eqn:Es.
    + destruct (load_session (backend w) sid) as [[m1|] b1].
      * rewrite C in E. injection E as <- <- <-. simpl. rewrite Es. eauto.
      * destruct (new_session b1) as [[sid' m1] b2].
        rewrite C in E. injection E as <- <- <-. simpl. eauto.
    + destruct (new_session (backend w)) as [[sid' m1] b2].
      rewrite C in E. injection E as <- <- <-. simpl. eauto.
Qed.

Lemma join_or_open_sound (self : BaseBackendSession) (w : World) :
  sound self ->
  forall m self' w', __join_or_open_session self w = (m, self', w') ->
  sound self'.
Proof.
  intros Hs m self' w' E m' _.
  now destruct (join_or_open_materialized self w Hs m self' w' E) as (_ & ? & _).
Qed.

Lemma set_accessed_sound (self : BaseBackendSession) (v : bool) :
  sound self -> sound (set_accessed self v).
Proof. intros Hs m Hm. exact (Hs m Hm). Qed.

Lemma run_op_sound (o : op) (self : BaseBackendSession) (w : World) :
  sound self -> sound (fst (run_op o self w)).
Proof.
  intros Hs.
  assert (Ha : sound (set_accessed self true)) by now apply set_accessed_sound.
  destruct o; simpl.
  - unfold __getitem__.
    destruct (negb (__sid_exists (set_accessed self true))); [exact Ha|].
    destruct (__join_or_open_session _ w) as [[m self'] w'] eqn:E.
    apply join_or_open_sound in E; [|exact Ha].
    now destruct (dict_get m key).
  - unfold __setitem__.
    destruct (__join_or_open_session _ w) as [[m self'] w'] eqn:E.
    destruct (join_or_open_materialized _ w Ha _ _ _ E) as (_ & Hsid & _).
    simpl. intros m' _. exact Hsid.
  - unfold __delitem__.
    destruct (negb (__sid_exists (set_accessed self true))); [exact Ha|].
    destruct (__join_or_open_session _ w) as [[m self'] w'] eqn:E.
    destruct (join_or_open_materialized _ w Ha _ _ _ E) as (Hm & Hsid & _).
    destruct (dict_del m key); simpl.
    + intros m' _. exact Hsid.
    + intros m' _. exact Hsid.
  - unfold __len__.
    destruct (__sid_exists (set_accessed self true)); [|exact Ha].
    destruct (__join_or_open_session _ w) as [[m self'] w'] eqn:E.
    now apply join_or_open_sound in E.
  - unfold __iter__.
    destruct (__sid_exists (set_accessed self true)); [|exact Ha].
    destruct (__join_or_open_session _ w) as [[m self'] w'] eqn:E.
    now apply join_or_open_sound in E.
  - unfold clear, __session_exists.
    destruct (__session self) as [m|] eqn:Em; [|exact Hs].
    destruct (Hs m Em) as [sid Hsid].
    unfold __sid_exists. rewrite Hsid. simpl.
    intros m' _. eauto.
Qed.

Lemma run_ops_sound (ops : list op) (self : BaseBackendSession) (w : World) :
  sound self -> sound (fst (run_ops ops self w)).
Proof.
  revert self w. induction ops as [|o ops IH]; intros self w Hs; [exact Hs|].
  simpl. pose proof (run_op_sound o self w Hs) as Ho.
  destruct (run_op o self w) as [self' w']. now apply IH.
Qed.

Lemma request_sound (cookie : option str) (ops : list op) (b0 : B) :
  sound (fst (session_of_request cookie ops b0)).
Proof. apply run_ops_sound, init_sound. Qed.

(** [content] on a session that holds an identifier whenever it holds a
    mapping. *)
Lemma content_cases (self : BaseBackendSession) (w : World) :
  sound self ->
  match __session self, _sid self with
  | Some m, Some sid =>
      content self w =
        (Ok (Some sid), self,
         mkWorld (save_session (backend w) sid m)
                 (calls w ++ [SaveSession sid m]))
  | Some _, None => False
  | None, Some sid =>
      content self w =
        (Ok (Some sid), self,
         mkWorld (keep_session (backend w) sid) (calls w ++ [KeepSession sid]))
  | None, None => content self w = (Ok None, self, w)
  end.
Proof.
  intros Hs. unfold content, __session_exists, __sid_exists,
    _commit_session, _touch_session.
  destruct (__session self) as [m|] eqn:Em.
  - destruct (Hs m Em) as [sid Hsid]. rewrite Hsid. reflexivity.
  - destruct (_sid self) as [sid|]; reflexivity.
Qed.

(** C1. On every store-backed session a request can produce, the terminal
    read of [content] does one of three things: with a materialized mapping
    it makes exactly one call [save_session sid content], whatever
    [_modified] says, and returns the sid; with a sid and no materialized
    mapping it makes exactly one call [keep_session sid] and returns the sid;
    with neither it returns [None] and calls nothing. *)
Theorem content_terminal_read (cookie : option str) (ops : list op) (b0 : B) :
  let '(self, w) := session_of_request cookie ops b0 in
  match __session self, _sid self with
  | Some m, Some sid =>
      content self w =
        (Ok (Some sid), self,
         mkWorld (save_session (backend w) sid m)
                 (calls w ++ [SaveSession sid m]))
  | Some _, None => False
  | None, Some sid =>
      content self w =
        (Ok (Some sid), self,
         mkWorld (keep_session (backend w) sid) (calls w ++ [KeepSession sid]))
  | None, None => content self w = (Ok None, self, w)
  end.
Proof.
  pose proof (request_sound cookie ops b0) as Hs.
  destruct (session_of_request cookie ops b0) as [self w].
  exact (content_cases self w Hs).
Qed.

Lemma join_or_open_holds (self : BaseBackendSession) (w : World) :
  forall m self' w', __join_or_open_session self w = (m, self', w') ->
  __session self' = Some m.
Proof.
  intros m self' w' E.
  pose proof (join_or_open_cases self w) as C.
  destruct (__session self) as [m0|] eqn:Em.
  - rewrite C in E. now injection E as <- <- <-.
  - destruct (_sid self) as [sid|].
    + destruct (load_session (backend w) sid) as [[m1|] b1].
      * rewrite C in E. now injection E as <- <- <-.
      * destruct (new_session b1) as [[sid' m1] b2].
        rewrite C in E. now injection E as <- <- <-.
    + destruct (new_session (backend w)) as [[sid' m1] b2].
      rewrite C in E. now injection E as <- <- <-.
Qed.

(** An operation either leaves the backend alone and the session as
    materialized as it was, or goes through [__join_or_open_session]. *)
Lemma run_op_cases (o : op) (self : BaseBackendSession) (w : World) :
  let '(self', w') := run_op o self w in
  (w' = w /\ _sid self' = _sid self /\
   (__session self' = None <-> __session self = None) /\
   (is_key_access o = true -> _sid self = None)) \/
  (is_key_access o = true /\
   exists m s1, __join_or_open_session (set_accessed self true) w = (m, s1, w') /\
                _sid self' = _sid s1 /\ __session self' <> None).
Proof.
  destruct o; simpl;
    unfold __getitem__, __setitem__, __delitem__, __len__, __iter__, clear,
      __session_exists, __sid_exists; simpl.
  6: { destruct (__session self) as [m|] eqn:Em; simpl.
       - destruct (_sid self) eqn:Es; simpl; left; rewrite ?Em;
           repeat split; intros; try discriminate; auto.
       - left. rewrite Em. repeat split; intros; try discriminate; auto. }
  all: try (destruct (_sid self) as [sid|] eqn:Es; simpl;
            [| left; simpl; rewrite Es; tauto]).
  all: destruct (__join_or_open_session _ w) as [[m s1] w1] eqn:E;
    pose proof (join_or_open_holds _ _ _ _ _ E) as Hm.
  all: try destruct (dict_get m key); try destruct (dict_del m key); simpl.
  all: right; split; [reflexivity|]; exists m, s1; simpl; rewrite ?Hm;
    repeat split; intros; try discriminate; auto.
Qed.

(** The calls [__join_or_open_session] makes. *)
Lemma join_or_open_calls (self : BaseBackendSession) (w : World) :
  forall m self' w', __join_or_open_session self w = (m, self', w') ->
  exists l, calls w' = calls w ++ l /\
    count is_load l <= 1 /\ count is_save l = 0 /\ count is_keep l = 0 /\
    (__session self <> None -> l = [] /\ w' = w /\ self' = self) /\
    (_sid self = None -> count is_load l = 0).
Proof.
  intros m self' w' E.
  pose proof (join_or_open_cases self w) as C.
  destruct (__session self) as [m0|] eqn:Em.
  - rewrite C in E. injection E as <- <- <-.
    exists []. rewrite app_nil_r. simpl. repeat split; auto.
  - destruct (_sid self) as [sid|].
    + destruct (load_session (backend w) sid) as [[m1|] b1].
      * rewrite C in E. injection E as <- <- <-.
        exists [LoadSession sid]. simpl.
        repeat split; auto; try congruence; intros; discriminate.
      * destruct (new_session b1) as [[sid' m1] b2].
        rewrite C in E. injection E as <- <- <-.
        exists [LoadSession sid; NewSession]. simpl. rewrite <- app_assoc.
        repeat split; auto; try congruence; intros; discriminate.
    + destruct (new_session (backend w)) as [[sid' m1] b2].
      rewrite C in E. injection E as <- <- <-.
      exists [NewSession]. simpl.
      repeat split; auto; congruence.
Qed.

(** C8. Running [__join_or_open_session] twice in a row returns the same
    mapping both times, the second run changes neither the session nor the
    backend, and the two runs together make at most one [load_session]
    call. *)
Theorem join_or_open_idempotent (self : BaseBackendSession) (w : World) :
  let '(m1, self1, w1) := __join_or_open_session self w in
  let '(m2, self2, w2) := __join_or_open_session self1 w1 in
  m2 = m1 /\ self2 = self1 /\ w2 = w1 /\ __session self2 = Some m1 /\
  exists l, calls w2 = calls w ++ l /\ count is_load l <= 1.
Proof.
  destruct (__join_or_open_session self w) as [[m1 self1] w1] eqn:E1.
  pose proof (join_or_open_holds _ _ _ _ _ E1) as Hm1.
  pose proof (join_or_open_cases self1 w1) as C. rewrite Hm1 in C.
  rewrite C.
  destruct (join_or_open_calls _ _ _ _ _ E1) as (l & Hl & Hload & _).
  repeat split; auto. exists l. auto.
Qed.

(** Over a whole request the mapping is loaded at most once. *)
Lemma run_ops_loads_once (ops : list op) (self : BaseBackendSession) (w : World) :
  (__session self = None -> count is_load (calls w) = 0) ->
  count is_load (calls w) <= 1 ->
  let '(self', w') := run_ops ops self w in
  (__session self' = None -> count is_load (calls w') = 0) /\
  count is_load (calls w') <= 1.
Proof.
  revert self w. induction ops as [|o ops IH]; intros self w H0 H1; simpl.
  - auto.
  - pose proof (run_op_cases o self w) as C.
    destruct (run_op o self w) as [self1 w1].
    apply IH.
    + destruct C as [(-> & _ & Hn & _) | (_ & m & s1 & E & _ & Hn)].
      * intros Hs. apply H0, Hn, Hs.
      * intros Hs. contradiction.
    + destruct C as [(-> & _) | (_ & m & s1 & E & _ & Hn)]; [exact H1|].
      destruct (join_or_open_calls _ _ _ _ _ E) as (l & -> & Hl & _ & _ & Hsome & _).
      rewrite count_app. simpl in Hsome.
      destruct (__session self) as [m0|] eqn:Em.
      * destruct Hsome as (-> & _); [discriminate|]. unfold count in *. simpl. lia.
      * rewrite H0 by reflexivity. lia.
Qed.

Lemma request_loads_once (cookie : option str) (ops : list op) (b0 : B) :
  count is_load (request_calls cookie ops b0) <= 1.
Proof.
  unfold request_calls.
  pose proof (request_sound cookie ops b0) as Hs.
  pose proof (run_ops_loads_once ops (__init__ cookie) (mkWorld b0 [])) as L.
  unfold session_of_request in *.
  destruct (run_ops ops (__init__ cookie) (mkWorld b0 [])) as [self w].
  simpl in Hs. destruct L as [_ L]; [reflexivity | unfold count; simpl; lia |].
  pose proof (content_cases self w Hs) as C.
  destruct (__session self) as [m|], (_sid self) as [sid|];
    try contradiction; rewrite C; simpl; rewrite ?count_app;
    unfold count in *; simpl; lia.
Qed.

(** Without a cookie no operation ever loads. *)
Lemma run_ops_no_cookie_no_load (ops : list op) (self : BaseBackendSession)
    (w : World) :
  (__session self = None -> _sid self = None) ->
  count is_load (calls w) = 0 ->
  let '(self', w') := run_ops ops self w in
  (__session self' = None -> _sid self' = None) /\
  count is_load (calls w') = 0.
Proof.
  revert self w. induction ops as [|o ops IH]; intros self w H0 H1; simpl.
  - auto.
  - pose proof (run_op_cases o self w) as C.
    destruct (run_op o self w) as [self1 w1].
    apply IH.
    + destruct C as [(-> & Hsid & Hn & _) | (_ & m & s1 & E & _ & Hn)].
      * intros Hs. rewrite Hsid. apply H0, Hn, Hs.
      * intros Hs. contradiction.
    + destruct C as [(-> & _) | (_ & m & s1 & E & _ & Hn)]; [exact H1|].
      destruct (join_or_open_calls _ _ _ _ _ E)
        as (l & -> & _ & _ & _ & Hsome & Hnone).
      rewrite count_app, H1. simpl in Hsome, Hnone.
      destruct (__session self) as [m0|] eqn:Em.
      * destruct Hsome as (-> & _); [discriminate|]. reflexivity.
      * rewrite Hnone; [reflexivity|]. now apply H0.
Qed.

(** Operations that are no key access leave an unmaterialized session and
    its backend as they are. *)
Lemma run_ops_no_key_access (ops : list op) (self : BaseBackendSession)
    (w : World) :
  forallb (fun o => negb (is_key_access o)) ops = true ->
  __session self = None ->
  run_ops ops self w = (self, w).
Proof.
  revert self w. induction ops as [|o ops IH]; intros self w Hops Hs; simpl.
  - reflexivity.
  - simpl in Hops. apply andb_true_iff in Hops as [Ho Hops].
    destruct o; try discriminate Ho. simpl.
    unfold clear, __session_exists. rewrite Hs. now apply IH.
Qed.

(** C2, as amended. With a sid the store knows: a request that makes no key
    access makes exactly one backend call, [keep_session sid], at the
    terminal read of [content]; a request that iterates makes exactly two,
    [load_session sid] at the iteration and [save_session sid m] at the
    terminal read, and no [keep_session]. *)
Theorem keep_alive_path (sid : str) (m : dict) (b0 b1 : B) (ops : list op)
    (Hvalid : load_session b0 sid = (Some m, b1))
    (Hops : forallb (fun o => negb (is_key_access o)) ops = true) :
  request_calls (Some sid) ops b0 = [KeepSession sid] /\
  request_calls (Some sid) [Iter] b0 = [LoadSession sid; SaveSession sid m].
Proof.
  split.
  - unfold request_calls, session_of_request.
    rewrite run_ops_no_key_access by (auto; reflexivity). reflexivity.
  - unfold request_calls, session_of_request. simpl.
    unfold __iter__, __join_or_open_session, _join_session. simpl.
    rewrite Hvalid. reflexivity.
Qed.

(** Without a cookie: no operation makes a [load_session] call, and a
    request that does nothing leaves [accessed] false, reads [content] as
    [None] and makes no backend call at all. *)
Lemma no_cookie_lazy (ops : list op) (b0 : B) :
  count is_load (calls (snd (session_of_request None ops b0))) = 0 /\
  count is_load (request_calls None ops b0) = 0 /\
  accessed (fst (session_of_request None [] b0)) = false /\
  content (fst (session_of_request None [] b0))
          (snd (session_of_request None [] b0)) =
    (Ok None, __init__ None, mkWorld b0 []).
Proof.
  pose proof (run_ops_no_cookie_no_load ops (__init__ None) (mkWorld b0 [])) as L.
  pose proof (request_sound None ops b0) as Hs.
  unfold request_calls, session_of_request in *.
  destruct (run_ops ops (__init__ None) (mkWorld b0 [])) as [self w].
  destruct L as [_ L]; [reflexivity | reflexivity |].
  simpl in Hs |- *. repeat split; auto.
  pose proof (content_cases self w Hs) as C.
  destruct (__session self) as [m|], (_sid self) as [sid|];
    try contradiction; rewrite C; simpl; rewrite ?count_app;
    unfold count in *; simpl; lia.
Qed.

(** [__len__] answers 0 whatever the session holds. *)
Lemma len_returns_zero (self : BaseBackendSession) (w : World) :
  fst (fst (__len__ self w)) = Ok 0.
Proof.
  unfold __len__. destruct (__sid_exists (set_accessed self true)); [|reflexivity].
  now destruct (__join_or_open_session _ w) as [[m s1] w1].
Qed.

End BaseProperties.

(** ** Dictionaries *)

Lemma dict_get_set (d : dict) (k k' : str) (v : pyval) :
  dict_get (dict_set d k v) k' = if str_eqb k k' then Some v else dict_get d k'.
Proof.
  induction d as [|[k0 v0] d IH]; simpl.
  - reflexivity.
  - destruct (str_eqb k0 k) eqn:E0; simpl.
    + apply str_eqb_eq in E0. subst k0. now destruct (str_eqb k k').
    + rewrite IH. destruct (str_eqb k0 k') eqn:E1; [|reflexivity].
      apply str_eqb_eq in E1. subst k0.
      destruct (str_eqb k k') eqn:E2; [|reflexivity].
      apply str_eqb_eq in E2. subst k'. rewrite str_eqb_refl in E0. discriminate.
Qed.

Lemma dict_keys_set (d : dict) (k : str) (v : pyval) :
  dict_keys (dict_set d k v) =
    if existsb (str_eqb k) (dict_keys d) then dict_keys d else dict_keys d ++ [k].
Proof.
  induction d as [|[k0 v0] d IH]; simpl.
  - reflexivity.
  - destruct (str_eqb k0 k) eqn:E0; simpl.
    + apply str_eqb_eq in E0. subst k0. now rewrite str_eqb_refl.
    + rewrite IH. destruct (str_eqb k k0) eqn:E1.
      * apply str_eqb_eq in E1. subst k0. now rewrite str_eqb_refl in E0.
      * simpl. now destruct (existsb (str_eqb k) (dict_keys d)).
Qed.

Lemma existsb_str_eqb (k : str) (l : list str) :
  existsb (str_eqb k) l = true <-> In k l.
Proof.
  rewrite existsb_exists. split.
  - intros (x & Hx & E). apply str_eqb_eq in E. now subst.
  - intros Hk. exists k. split; [exact Hk | apply str_eqb_refl].
Qed.

Lemma dict_keys_set_in (d : dict) (k k' : str) (v : pyval) :
  In k' (dict_keys (dict_set d k v)) <-> k' = k \/ In k' (dict_keys d).
Proof.
  rewrite dict_keys_set.
  destruct (existsb (str_eqb k) (dict_keys d)) eqn:E.
  - apply existsb_str_eqb in E. split; [tauto|]. intros [->|Hk]; assumption.
  - rewrite in_app_iff. simpl. split; intros Hk; [|destruct Hk as [->|Hk]]; intuition.
Qed.

Lemma dict_set_NoDup (d : dict) (k : str) (v : pyval) :
  NoDup (dict_keys d) -> NoDup (dict_keys (dict_set d k v)).
Proof.
  intros Hd. rewrite dict_keys_set.
  destruct (existsb (str_eqb k) (dict_keys d)) eqn:E; [exact Hd|].
  apply NoDup_app; [exact Hd | repeat constructor; intros [] | ].
  intros x Hx [<-|[]].
  apply existsb_str_eqb in Hx. congruence.
Qed.

Lemma dict_get_app_notin (d1 d2 : dict) (k : str) :
  ~ In k (dict_keys d1) -> dict_get (d1 ++ d2) k = dict_get d2 k.
Proof.
  induction d1 as [|[k0 v0] d1 IH]; simpl; intros Hk; [reflexivity|].
  destruct (str_eqb k0 k) eqn:E.
  - apply str_eqb_eq in E. tauto.
  - apply IH. tauto.
Qed.

Lemma dict_set_notin (d : dict) (k : str) (v : pyval) :
  ~ In k (dict_keys d) -> dict_set d k v = d ++ [(k, v)].
Proof.
  induction d as [|[k0 v0] d IH]; simpl; intros Hk; [reflexivity|].
  destruct (str_eqb k0 k) eqn:E.
  - apply str_eqb_eq in E. tauto.
  - rewrite IH by tauto. reflexivity.
Qed.

Lemma find_app {A : Type} (f : A -> bool) (l1 l2 : list A) :
  find f (l1 ++ l2) =
    match find f l1 with
    | Some x => Some x
    | None => find f l2
    end.
Proof.
  induction l1 as [|x l1 IH]; simpl; [reflexivity|].
  now destruct (f x).
Qed.

(** ** The session held in the cookie *)

Section CookieSessionProperties.

Import CookieBase.
Context {B : Type} `{BaseCookieSessionBackend B}.

Lemma written_on_NoDup (writes : list (str * pyval)) (d : dict) :
  NoDup (dict_keys d) -> NoDup (dict_keys (written_on d writes)).
Proof.
  unfold written_on. revert d.
  induction writes as [|[k v] writes IH]; intros d Hd; simpl.
  - exact Hd.
  - apply IH, dict_set_NoDup, Hd.
Qed.

Lemma written_on_keys (writes : list (str * pyval)) (d : dict) (key : str) :
  In key (dict_keys (written_on d writes)) <->
  In key (dict_keys d) \/ In key (map fst writes).
Proof.
  unfold written_on. revert d.
  induction writes as [|[k v] writes IH]; intros d; simpl.
  - tauto.
  - rewrite IH, dict_keys_set_in. intuition.
Qed.

(** The value under a key is the one written last. *)
Lemma written_on_get (writes : list (str * pyval)) (d : dict) (key : str) :
  dict_get (written_on d writes) key =
    match find (fun kv => str_eqb (fst kv) key) (rev writes) with
    | Some kv => Some (snd kv)
    | None => dict_get d key
    end.
Proof.
  unfold written_on. revert d.
  induction writes as [|[k v] writes IH]; intros d; simpl.
  - reflexivity.
  - rewrite IH, find_app.
    destruct (find _ (rev writes)) as [kv|]; [reflexivity|].
    simpl. rewrite dict_get_set. now destruct (str_eqb k key).
Qed.

Lemma run_ops_sets (writes : list (str * pyval)) (d : dict) (a c : bool) :
  run_ops (sets writes) (mkSession d a c) =
    mkSession (written_on d writes)
              (match writes with [] => a | _ => true end)
              (match writes with [] => c | _ => false end).
Proof.
  revert d a c. induction writes as [|[k v] writes IH]; intros d a c.
  - reflexivity.
  - unfold run_ops, sets in *. simpl. unfold set_accessed, set_content, set_cleared.
    simpl. rewrite IH. now destruct writes.
Qed.

Lemma popitem_cons (k : str) (v : pyval) (d : dict) (a c : bool) :
  popitem (mkSession ((k, v) :: d) a c) = (Ok (k, v), mkSession d true c).
Proof.
  unfold popitem, __iter__, __getitem__, __delitem__. simpl.
  rewrite str_eqb_refl. simpl. rewrite str_eqb_refl. reflexivity.
Qed.

(** [MutableMapping.clear] ends, with the mapping empty, within one round
    for each entry and one more. *)
Lemma MutableMapping_clear_enough (fuel : nat) (d : dict) (a c : bool) :
  length d < fuel ->
  MutableMapping_clear fuel (mkSession d a c) = Some (Ok tt, mkSession [] true c).
Proof.
  revert d a. induction fuel as [|fuel IH]; intros d a Hf; [lia|].
  destruct d as [|[k v] d]; simpl.
  - reflexivity.
  - rewrite popitem_cons. apply IH. simpl in Hf. lia.
Qed.

Lemma clear_enough (fuel : nat) (self : StandardCookieBackendSession) :
  dict_len (__content self) < fuel ->
  clear fuel self = Some (Ok tt, mkSession [] true true).
Proof.
  intros Hf. unfold clear. destruct self as [d a c]. unfold set_accessed. simpl.
  rewrite MutableMapping_clear_enough by exact Hf. reflexivity.
Qed.

Lemma run_op_Clear (self : StandardCookieBackendSession) :
  run_op Clear self = mkSession [] true true.
Proof.
  simpl. rewrite clear_enough by (unfold dict_len; lia). reflexivity.
Qed.

(** Only a write takes a session out of the cleared state. *)
Lemma run_ops_cleared (ops : list op) (self : StandardCookieBackendSession) :
  forallb (fun o => negb (is_set o)) ops = true ->
  __cleared self = true ->
  __cleared (run_ops ops self) = true.
Proof.
  revert self. induction ops as [|o ops IH]; intros self Hops Hc; [exact Hc|].
  simpl in Hops. apply andb_true_iff in Hops as [Ho Hops].
  unfold run_ops in *. simpl. apply IH; [exact Hops|].
  destruct o; try discriminate Ho; try exact Hc.
  - simpl. unfold __getitem__. now destruct (dict_get _ key).
  - simpl. unfold __delitem__. now destruct (dict_del _ key).
  - now rewrite run_op_Clear.
Qed.

(** [dict(self)] is a copy of the mapping; taking it marks the session
    accessed. *)
Lemma dict_items_copy (d2 d1 : dict) (c : bool) :
  NoDup (dict_keys (d1 ++ d2)) ->
  dict_items (dict_keys d2) d1 (mkSession (d1 ++ d2) true c) =
    (Ok (d1 ++ d2), mkSession (d1 ++ d2) true c).
Proof.
  revert d1. induction d2 as [|[k v] d2 IH]; intros d1 Hnd; simpl.
  - now rewrite app_nil_r.
  - assert (Hk : ~ In k (dict_keys d1)).
    { unfold dict_keys in *. rewrite map_app in Hnd. simpl in Hnd.
      apply NoDup_remove_2 in Hnd. rewrite in_app_iff in Hnd. tauto. }
    unfold __getitem__, set_accessed. simpl.
    rewrite dict_get_app_notin by exact Hk. simpl. rewrite str_eqb_refl.
    rewrite dict_set_notin by exact Hk.
    replace (d1 ++ (k, v) :: d2) with ((d1 ++ [(k, v)]) ++ d2)
      by now rewrite <- app_assoc.
    apply IH. now rewrite <- app_assoc.
Qed.

Lemma dict_of_copy (self : StandardCookieBackendSession) :
  NoDup (dict_keys (__content self)) ->
  dict_of self = (Ok (__content self), set_accessed self true).
Proof.
  intros Hnd. destruct self as [d a c]. unfold dict_of, __iter__, set_accessed.
  simpl. exact (dict_items_copy d [] c Hnd).
Qed.

Lemma dict_items_accessed (keys : list str) (acc : dict)
    (self : StandardCookieBackendSession) :
  __accessed self = true ->
  let self' := snd (dict_items keys acc self) in
  __accessed self' = true /\ __content self' = __content self /\
  __cleared self' = __cleared self.
Proof.
  revert acc self. induction keys as [|k keys IH]; intros acc self Ha; simpl.
  - auto.
  - unfold __getitem__. destruct (dict_get _ k); simpl; [|auto].
    apply (IH _ (set_accessed self true)). reflexivity.
Qed.

(** C10. Reading [content] on a session that is not cleared leaves
    [accessed] true, whatever it was; the mapping and the cleared flag stay
    as they are. *)
Theorem content_sets_accessed (backend : B) (now : Z)
    (self : StandardCookieBackendSession) (Hc : __cleared self = false) :
  let self' := snd (content backend now self) in
  accessed self' = true /\ __content self' = __content self /\
  __cleared self' = __cleared self.
Proof.
  unfold content. rewrite Hc. unfold dict_of, __iter__.
  pose proof (dict_items_accessed (dict_keys (__content (set_accessed self true)))
                [] (set_accessed self true) eq_refl) as A.
  destruct (dict_items _ [] (set_accessed self true)) as [r self'].
  simpl in A. rewrite Hc in A.
  destruct r as [d|e]; [destruct (save_content backend now d)|]; exact A.
Qed.

(** C9. [clear] ends and leaves the session cleared and empty.  From there,
    as long as nothing is written, [content] is [None].  After a run of
    writes, [content] is the token [save_content] makes of the mapping that
    holds exactly the keys written, each with the value written last; and a
    backend that reads its own token of that mapping back reads it from the
    token [content] returned. *)
Theorem clear_semantics (backend : B) (now : Z)
    (self : StandardCookieBackendSession) (writes : list (str * pyval))
    (Hwrites : writes <> [])
    (Hround : forall token, save_content backend now (written writes) = Ok token ->
              load_content backend now token = Ok (PDict (written writes))) :
  (forall fuel, dict_len (__content self) < fuel ->
     clear fuel self = Some (Ok tt, run_op Clear self)) /\
  (forall ops, forallb (fun o => negb (is_set o)) ops = true ->
     fst (content backend now (run_ops ops (run_op Clear self))) = Ok None) /\
  fst (content backend now (run_ops (sets writes) (run_op Clear self))) =
    match save_content backend now (written writes) with
    | Ok token => Ok (Some token)
    | Raise e => Raise e
    end /\
  (forall token,
     fst (content backend now (run_ops (sets writes) (run_op Clear self))) =
       Ok (Some token) ->
     load_content backend now token = Ok (PDict (written writes))) /\
  (forall key, In key (dict_keys (written writes)) <-> In key (map fst writes)) /\
  (forall key, dict_get (written writes) key =
     option_map snd (find (fun kv => str_eqb (fst kv) key) (rev writes))).
Proof.
  rewrite run_op_Clear.
  assert (Hc : fst (content backend now (run_ops (sets writes) (mkSession [] true true))) =
    match save_content backend now (written writes) with
    | Ok token => Ok (Some token)
    | Raise e => Raise e
    end).
  { rewrite run_ops_sets. unfold content.
    destruct writes as [|w writes]; [congruence|]. cbn [__cleared].
    rewrite dict_of_copy
      by (cbn [__content]; apply written_on_NoDup; constructor).
    cbn [__content]. fold (written (w :: writes)).
    now destruct (save_content backend now (written (w :: writes))). }
  repeat split.
  - intros fuel Hf. now apply clear_enough.
  - intros ops Hops. unfold content.
    rewrite (run_ops_cleared ops (mkSession [] true true) Hops eq_refl).
    reflexivity.
  - exact Hc.
  - intros token Ht. apply Hround. rewrite Hc in Ht.
    destruct (save_content backend now (written writes)); congruence.
  - intros Hk. apply written_on_keys in Hk. simpl in Hk. tauto.
  - intros Hk. apply written_on_keys. now right.
  - intros key. unfold written. rewrite written_on_get.
    now destruct (find _ (rev writes)).
Qed.

End CookieSessionProperties.

(** ** Base64 *)

Section Base64Properties.

Import Base64.
Local Open Scope N_scope.

Lemma list_ind3 {A : Type} (P : list A -> Prop) :
  P [] -> (forall x, P [x]) -> (forall x y, P [x; y]) ->
  (forall x y z l, P l -> P (x :: y :: z :: l)) ->
  forall l, P l.
Proof.
  intros H0 H1 H2 H3.
  fix IH 1.
  intros [|x [|y [|z l]]]; [apply H0 | apply H1 | apply H2 | apply H3, IH].
Qed.

Lemma sextets_ok : forallb sextet_ok (map N.of_nat (seq 0 64)) = true.
Proof. vm_compute. reflexivity. Qed.

Lemma sextet_ok_lt (n : N) : n < 64 -> sextet_ok n = true.
Proof.
  intros Hn. pose proof sextets_ok as Hall. rewrite forallb_forall in Hall.
  apply Hall. apply in_map_iff. exists (N.to_nat n). split; [lia|].
  apply in_seq. lia.
Qed.

(** A character of the URL-safe alphabet decodes to the six bits it was
    made from, is no padding, and is ASCII. *)
Lemma urlsafe_char (n : N) :
  n < 64 ->
  let c := _urlsafe_decode_translation (_urlsafe_encode_translation (b2a_char n)) in
  table_a2b_base64 c = Some n /\ Ascii.eqb c BASE64_PAD = false /\
  N_of_ascii (_urlsafe_encode_translation (b2a_char n)) < 128.
Proof.
  intros Hn c. pose proof (sextet_ok_lt n Hn) as Hok. unfold sextet_ok in Hok.
  fold c in Hok.
  apply andb_true_iff in Hok as [Hok Hascii].
  apply andb_true_iff in Hok as [Htab Hpad].
  destruct (table_a2b_base64 c) as [m|]; [|discriminate].
  apply N.eqb_eq in Htab. apply negb_true_iff in Hpad. apply N.ltb_lt in Hascii.
  subst m. auto.
Qed.

Lemma urlsafe_pad :
  _urlsafe_decode_translation (_urlsafe_encode_translation BASE64_PAD) = BASE64_PAD.
Proof. reflexivity. Qed.

Ltac step_char n :=
  let Ht := fresh "Ht" in let Ht' := fresh "Ht" in let Hp := fresh "Hp" in
  assert (n < 64) as Ht by lia;
  destruct (urlsafe_char n Ht) as (Ht' & Hp & _);
  cbn [a2b_loop]; rewrite Hp, Ht'; clear Ht Ht' Hp.

(** The decoder run on an encoding, from the start of a group of four. *)
Lemma a2b_loop_encoded (data : bytes) :
  forall out,
  a2b_loop (map _urlsafe_decode_translation (urlsafe_b64encode data)) 0 0 0 out =
    Ok (out ++ data).
Proof.
  unfold urlsafe_b64encode.
  induction data as [|x|x y|x y z data IH] using list_ind3; intros out.
  - simpl. now rewrite app_nil_r.
  - pose proof (N_ascii_bounded x) as Hx.
    cbn [b2a_base64 map].
    step_char (N_of_ascii x / 4). step_char (N_of_ascii x mod 4 * 16).
    rewrite !urlsafe_pad. cbn.
    replace (N_of_ascii x / 4 * 4 + N_of_ascii x mod 4 * 16 / 16)
      with (N_of_ascii x) by lia.
    now rewrite ascii_N_embedding.
  - pose proof (N_ascii_bounded x) as Hx. pose proof (N_ascii_bounded y) as Hy.
    cbn [b2a_base64 map].
    step_char (N_of_ascii x / 4).
    step_char (N_of_ascii x mod 4 * 16 + N_of_ascii y / 16).
    step_char (N_of_ascii y mod 16 * 4).
    rewrite !urlsafe_pad. cbn.
    replace (N_of_ascii x / 4 * 4 +
             (N_of_ascii x mod 4 * 16 + N_of_ascii y / 16) / 16)
      with (N_of_ascii x) by lia.
    replace ((N_of_ascii x mod 4 * 16 + N_of_ascii y / 16) mod 16 * 16 +
             N_of_ascii y mod 16 * 4 / 4)
      with (N_of_ascii y) by lia.
    rewrite !ascii_N_embedding, <- app_assoc. reflexivity.
  - pose proof (N_ascii_bounded x) as Hx. pose proof (N_ascii_bounded y) as Hy.
    pose proof (N_ascii_bounded z) as Hz.
    cbn [b2a_base64 map].
    step_char (N_of_ascii x / 4).
    step_char (N_of_ascii x mod 4 * 16 + N_of_ascii y / 16).
    step_char (N_of_ascii y mod 16 * 4 + N_of_ascii z / 64).
    step_char (N_of_ascii z mod 64).
    rewrite IH.
    replace (N_of_ascii x / 4 * 4 +
             (N_of_ascii x mod 4 * 16 + N_of_ascii y / 16) / 16)
      with (N_of_ascii x) by lia.
    replace ((N_of_ascii x mod 4 * 16 + N_of_ascii y / 16) mod 16 * 16 +
             (N_of_ascii y mod 16 * 4 + N_of_ascii z / 64) / 4)
      with (N_of_ascii y) by lia.
    replace ((N_of_ascii y mod 16 * 4 + N_of_ascii z / 64) mod 4 * 64 +
             N_of_ascii z mod 64)
      with (N_of_ascii z) by lia.
    rewrite !ascii_N_embedding, <- !app_assoc. reflexivity.
Qed.

(** Decoding an encoding gives the bytes back. *)
Lemma urlsafe_b64decode_encode (data : bytes) :
  urlsafe_b64decode (urlsafe_b64encode data) = Ok data.
Proof. unfold urlsafe_b64decode, a2b_base64. apply a2b_loop_encoded. Qed.

(** The bits left over in the last group are not looked at: a run of whole
    groups and a last group decode to the same bytes whatever these bits
    are. *)
Lemma mod3_step (n : nat) : (S (S (S n)) mod 3 = n mod 3)%nat.
Proof.
  replace (S (S (S n))) with (n + 1 * 3)%nat by lia.
  apply Nat.Div0.mod_add.
Qed.

Lemma b2a_base64_app (data tail : bytes) :
  (length data mod 3 = 0)%nat ->
  b2a_base64 (data ++ tail) = b2a_base64 data ++ b2a_base64 tail.
Proof.
  induction data as [|x|x y|x y z data IH] using list_ind3; intros Hl.
  - reflexivity.
  - discriminate Hl.
  - discriminate Hl.
  - cbn [app b2a_base64]. rewrite IH; [reflexivity|].
    cbn [length] in Hl. now rewrite mod3_step in Hl.
Qed.

Lemma a2b_loop_groups (data tail : bytes) :
  (length data mod 3 = 0)%nat ->
  forall out,
  a2b_loop (map _urlsafe_decode_translation
              (map _urlsafe_encode_translation (b2a_base64 data ++ tail)))
           0 0 0 out =
  a2b_loop (map _urlsafe_decode_translation
              (map _urlsafe_encode_translation tail)) 0 0 0 (out ++ data).
Proof.
  induction data as [|x|x y|x y z data IH] using list_ind3; intros Hl out.
  - simpl. now rewrite app_nil_r.
  - discriminate Hl.
  - discriminate Hl.
  - pose proof (N_ascii_bounded x) as Hx. pose proof (N_ascii_bounded y) as Hy.
    pose proof (N_ascii_bounded z) as Hz.
    cbn [b2a_base64 map app].
    step_char (N_of_ascii x / 4).
    step_char (N_of_ascii x mod 4 * 16 + N_of_ascii y / 16).
    step_char (N_of_ascii y mod 16 * 4 + N_of_ascii z / 64).
    step_char (N_of_ascii z mod 64).
    rewrite IH by (cbn [length] in Hl; now rewrite mod3_step in Hl).
    replace (N_of_ascii x / 4 * 4 +
             (N_of_ascii x mod 4 * 16 + N_of_ascii y / 16) / 16)
      with (N_of_ascii x) by lia.
    replace ((N_of_ascii x mod 4 * 16 + N_of_ascii y / 16) mod 16 * 16 +
             (N_of_ascii y mod 16 * 4 + N_of_ascii z / 64) / 4)
      with (N_of_ascii y) by lia.
    replace ((N_of_ascii y mod 16 * 4 + N_of_ascii z / 64) mod 4 * 64 +
             N_of_ascii z mod 64)
      with (N_of_ascii z) by lia.
    rewrite !ascii_N_embedding, <- !app_assoc. reflexivity.
Qed.

Lemma urlsafe_b64decode_last_group (data : bytes) (x : ascii) (k : N) :
  (length data mod 3 = 0)%nat -> k < 16 ->
  urlsafe_b64decode
    (map _urlsafe_encode_translation (b2a_base64 data ++ last_group x k)) =
  Ok (data ++ [x]).
Proof.
  intros Hl Hk. unfold urlsafe_b64decode, a2b_base64.
  rewrite a2b_loop_groups by exact Hl.
  pose proof (N_ascii_bounded x) as Hx.
  unfold last_group. cbn [map].
  step_char (N_of_ascii x / 4). step_char (N_of_ascii x mod 4 * 16 + k).
  rewrite !urlsafe_pad. cbn.
  replace (N_of_ascii x / 4 * 4 + (N_of_ascii x mod 4 * 16 + k) / 16)
    with (N_of_ascii x) by lia.
  now rewrite ascii_N_embedding.
Qed.

Lemma urlsafe_char_inj (n m : N) :
  n < 64 -> m < 64 ->
  _urlsafe_encode_translation (b2a_char n) =
    _urlsafe_encode_translation (b2a_char m) ->
  n = m.
Proof.
  intros Hn Hm E.
  destruct (urlsafe_char n Hn) as (Tn & _). destruct (urlsafe_char m Hm) as (Tm & _).
  cbv zeta in Tn, Tm. rewrite E in Tn. congruence.
Qed.

(** The decoder raises nothing but [binascii.Error]. *)
Lemma a2b_loop_raises (data : bytes) :
  forall quad_pos leftchar pads out e,
  a2b_loop data quad_pos leftchar pads out = Raise e -> e = BinasciiError.
Proof.
  induction data as [|c data IH]; intros q l p o e; cbn [a2b_loop].
  - destruct q; congruence.
  - destruct (Ascii.eqb c BASE64_PAD).
    + destruct (2 <=? q)%nat; [|apply IH].
      destruct (4 <=? q + S p)%nat; [discriminate | apply IH].
    + destruct (table_a2b_base64 c); [|apply IH].
      destruct q as [|[|[|q]]]; apply IH.
Qed.

Lemma urlsafe_b64decode_raises (s : bytes) (e : exn) :
  urlsafe_b64decode s = Raise e -> e = BinasciiError.
Proof. apply a2b_loop_raises. Qed.

(** An encoding is ASCII. *)
Lemma urlsafe_b64encode_ascii (data : bytes) :
  Forall (fun c => N_of_ascii c < 128) (urlsafe_b64encode data).
Proof.
  unfold urlsafe_b64encode.
  induction data as [|x|x y|x y z data IH] using list_ind3;
    cbn [b2a_base64 map];
    try pose proof (N_ascii_bounded x); try pose proof (N_ascii_bounded y);
    try pose proof (N_ascii_bounded z);
    repeat (constructor; [try (apply urlsafe_char; lia); try (vm_compute; reflexivity)|]);
    auto.
Qed.

End Base64Properties.

(** ** UTF-8 on ASCII *)

Section Utf8Properties.

Local Open Scope N_scope.

Lemma utf8_decode_ascii (data : bytes) :
  Forall (fun c => N_of_ascii c < 128) data ->
  Utf8.decode data = Ok (map N_of_ascii data).
Proof.
  induction 1 as [|c data Hc _ IH]; [reflexivity|].
  cbn [Utf8.decode map]. apply N.ltb_lt in Hc. rewrite Hc, IH. reflexivity.
Qed.

Lemma utf8_encode_ascii (data : bytes) :
  Forall (fun c => N_of_ascii c < 128) data ->
  Utf8.encode (map N_of_ascii data) = Ok data.
Proof.
  induction 1 as [|c data Hc _ IH]; [reflexivity|].
  cbn [Utf8.encode map]. rewrite IH. unfold Utf8.encode_code_point.
  apply N.ltb_lt in Hc. rewrite Hc. unfold Utf8.byte.
  now rewrite ascii_N_embedding.
Qed.

(** An ASCII str and its encoding. *)
Lemma utf8_encode_ascii_str (s : str) :
  Forall (fun c => c < 128) s ->
  Utf8.encode s = Ok (map ascii_of_N s) /\
  Utf8.decode (map ascii_of_N s) = Ok s.
Proof.
  induction 1 as [|c s Hc _ [IHe IHd]]; [split; reflexivity|].
  cbn [Utf8.encode Utf8.decode map]. rewrite IHe, IHd.
  unfold Utf8.encode_code_point, Utf8.byte.
  rewrite N_ascii_embedding by lia.
  apply N.ltb_lt in Hc. rewrite Hc. split; reflexivity.
Qed.

End Utf8Properties.

(** ** JSON *)

Section JsonProperties.

Import Json.
Local Open Scope N_scope.

Lemma pyval_ind' (P : pyval -> Prop) :
  P PNone -> (forall v, P (PBool v)) -> (forall z, P (PInt z)) ->
  (forall l, P (PFloat l)) -> (forall s, P (PStr s)) ->
  (forall items, Forall P items -> P (PList items)) ->
  (forall entries, Forall (fun kv => P (snd kv)) entries -> P (PDict entries)) ->
  forall v, P v.
Proof.
  intros Hn Hb Hi Hf Hs Hl Hd. fix IH 1.
  intros [|v|z|l|s|items|entries];
    [apply Hn | apply Hb | apply Hi | apply Hf | apply Hs | | ].
  - apply Hl. induction items as [|x items IHi]; constructor; [apply IH | exact IHi].
  - apply Hd. induction entries as [|[k x] entries IHe]; constructor;
      [apply IH | exact IHe].
Qed.

Lemma json_dumps_list (items : list pyval) :
  json_dumps (PList items) = 91 :: join_items items ++ [93].
Proof. reflexivity. Qed.

Lemma json_dumps_dict (entries : list (str * pyval)) :
  json_dumps (PDict entries) = 123 :: join_entries entries ++ [125].
Proof. reflexivity. Qed.

(** A property of every number below a bound, checked by running through
    them. *)
Lemma N_forallb_lt (f : N -> bool) (k : nat) :
  forallb f (map N.of_nat (seq 0 k)) = true ->
  forall n, n < N.of_nat k -> f n = true.
Proof.
  intros Hall n Hn. rewrite forallb_forall in Hall. apply Hall.
  apply in_map_iff. exists (N.to_nat n). split; [lia|]. apply in_seq. lia.
Qed.

(** *** Strings *)

Lemma hex_value_digit (d : N) : d < 16 -> hex_value (hex_digit d) = Some d.
Proof.
  intros Hd.
  assert (Hall : forall n, n < N.of_nat 16 ->
            (match hex_value (hex_digit n) with
             | Some m => m =? n
             | None => false
             end) = true)
    by (apply N_forallb_lt; vm_compute; reflexivity).
  specialize (Hall d Hd). destruct (hex_value (hex_digit d)); [|discriminate].
  apply N.eqb_eq in Hall. now subst.
Qed.

Lemma hex4_u_escape (c : N) (tail : str) :
  c < 65536 ->
  u_escape c ++ tail =
    92 :: 117 :: hex_digit (c / 4096) :: hex_digit ((c / 256) mod 16)
       :: hex_digit ((c / 16) mod 16) :: hex_digit (c mod 16) :: tail /\
  hex4 (hex_digit (c / 4096) :: hex_digit ((c / 256) mod 16)
          :: hex_digit ((c / 16) mod 16) :: hex_digit (c mod 16) :: tail) =
    Some (c, tail).
Proof.
  intros Hc. split; [reflexivity|]. unfold hex4.
  rewrite !hex_value_digit by lia. do 2 f_equal. lia.
Qed.

Lemma scanstring_quote (fuel : nat) (s acc : str) :
  scanstring (S fuel) (34 :: s) acc = Ok (acc, s).
Proof. reflexivity. Qed.

Lemma scanstring_plain (fuel : nat) (c : N) (s acc : str) :
  c <> 34 -> c <> 92 -> 32 <= c ->
  scanstring (S fuel) (c :: s) acc = scanstring fuel s (acc ++ [c]).
Proof.
  intros H1 H2 H3. cbn [scanstring].
  apply N.eqb_neq in H1, H2. rewrite H1, H2.
  destruct (N.ltb_spec c 32); [lia | reflexivity].
Qed.

Lemma scanstring_escape (fuel : nat) (e c : N) (s acc : str) :
  e <> 117 -> unescape e = Some c ->
  scanstring (S fuel) (92 :: e :: s) acc = scanstring fuel s (acc ++ [c]).
Proof.
  intros H1 H2. cbn [scanstring].
  change (92 =? 34) with false. change (92 =? 92) with true. cbn iota.
  apply N.eqb_neq in H1. rewrite H1, H2. reflexivity.
Qed.

Lemma scanstring_u (fuel : nat) (c : N) (s2 s3 acc : str) :
  hex4 s2 = Some (c, s3) -> is_high_surrogate c = false ->
  scanstring (S fuel) (92 :: 117 :: s2) acc = scanstring fuel s3 (acc ++ [c]).
Proof.
  intros H1 H2. cbn [scanstring].
  change (92 =? 34) with false. change (92 =? 92) with true.
  change (117 =? 117) with true. cbn iota.
  rewrite H1, H2. reflexivity.
Qed.

Lemma scanstring_pair (fuel : nat) (hi lo : N) (s2 s4 s5 acc : str) :
  hex4 s2 = Some (hi, 92 :: 117 :: s4) -> is_high_surrogate hi = true ->
  (5 <= length s4)%nat ->
  hex4 s4 = Some (lo, s5) -> is_low_surrogate lo = true ->
  scanstring (S fuel) (92 :: 117 :: s2) acc =
    scanstring fuel s5 (acc ++ [join_surrogates hi lo]).
Proof.
  intros H1 H2 H3 H4 H5. cbn [scanstring].
  change (92 =? 34) with false. change (92 =? 92) with true.
  change (117 =? 117) with true. cbn iota.
  rewrite H1, H2. cbn [andb length].
  destruct (Nat.leb_spec 7 (S (S (length s4)))); [|lia].
  change (behind 92 (92 :: 117 :: s4)) with (Some (117 :: s4)). cbv iota.
  change (behind 117 (117 :: s4)) with (Some s4). cbv iota.
  rewrite H4, H5. reflexivity.
Qed.

(** One escaped character, read back. *)
Lemma scanstring_escape_char (fuel : nat) (c t : N) (tail acc : str) :
  is_scalar c = true ->
  scanstring (S fuel) (escape_char c ++ t :: tail) acc =
    scanstring fuel (t :: tail) (acc ++ [c]).
Proof.
  intros Hc. unfold is_scalar in Hc.
  apply andb_true_iff in Hc as [Hlt Hs]. apply N.ltb_lt in Hlt.
  apply negb_true_iff in Hs. unfold escape_char.
  destruct (N.eqb_spec c 34) as [->|N34]; [now apply scanstring_escape|].
  destruct (N.eqb_spec c 92) as [->|N92]; [now apply scanstring_escape|].
  destruct (N.eqb_spec c 10) as [->|N10]; [now apply scanstring_escape|].
  destruct (N.eqb_spec c 13) as [->|N13]; [now apply scanstring_escape|].
  destruct (N.eqb_spec c 9) as [->|N9]; [now apply scanstring_escape|].
  destruct (N.eqb_spec c 12) as [->|N12]; [now apply scanstring_escape|].
  destruct (N.eqb_spec c 8) as [->|N8]; [now apply scanstring_escape|].
  destruct ((32 <=? c) && (c <=? 126)) eqn:Hp.
  - apply andb_true_iff in Hp as [Hp _]. apply N.leb_le in Hp.
    now apply scanstring_plain.
  - destruct (N.ltb_spec c 0x10000) as [Hlow|Hhigh].
    + destruct (hex4_u_escape c (t :: tail) Hlow) as [-> Hx].
      apply (scanstring_u fuel c _ _ acc Hx).
      unfold is_high_surrogate.
      destruct (N.leb_spec 0xD800 c), (N.leb_spec c 0xDBFF); try reflexivity.
      destruct (N.leb_spec c 0xDFFF); [discriminate Hs | lia].
    + set (n := c - 0x10000).
      set (hi := 0xD800 + (n / 1024) mod 1024). set (lo := 0xDC00 + n mod 1024).
      assert (Hhi : hi < 65536) by (subst hi n; lia).
      assert (Hlo : lo < 65536) by (subst lo n; lia).
      rewrite <- app_assoc.
      destruct (hex4_u_escape hi (u_escape lo ++ t :: tail) Hhi) as [-> Hx1].
      destruct (hex4_u_escape lo (t :: tail) Hlo) as [E2 Hx2].
      rewrite E2 in Hx1 |- *.
      rewrite (scanstring_pair fuel hi lo _ _ (t :: tail) acc Hx1).
      * do 3 f_equal. unfold join_surrogates. subst hi lo n. lia.
      * unfold is_high_surrogate. subst hi n.
        apply andb_true_iff. split; apply N.leb_le; lia.
      * simpl. lia.
      * exact Hx2.
      * unfold is_low_surrogate. subst lo n.
        apply andb_true_iff. split; apply N.leb_le; lia.
Qed.

Lemma escape_char_nonempty (c : N) : escape_char c <> [].
Proof.
  unfold escape_char, u_escape.
  repeat match goal with
         | |- (if ?x then _ else _) <> [] => destruct x
         end; discriminate.
Qed.

Lemma flat_map_escape_length (s : str) :
  (length s <= length (flat_map escape_char s))%nat.
Proof.
  induction s as [|c s IH]; simpl; [lia|].
  rewrite length_app. pose proof (escape_char_nonempty c) as Hc.
  destruct (escape_char c); [congruence | simpl; lia].
Qed.

(** The body of a string as [json_dumps] writes it, read back up to the
    closing quote. *)
Lemma scanstring_encoded (s : str) :
  valid_text s ->
  forall fuel acc rest, (length s < fuel)%nat ->
  scanstring fuel (flat_map escape_char s ++ 34 :: rest) acc = Ok (acc ++ s, rest).
Proof.
  unfold valid_text. induction s as [|c s IH]; intros Hv fuel acc rest Hf.
  - destruct fuel; [simpl in Hf; lia|]. simpl. now rewrite app_nil_r.
  - simpl in Hv. apply andb_true_iff in Hv as [Hc Hv].
    destruct fuel; [simpl in Hf; lia|].
    cbn [flat_map]. rewrite <- app_assoc.
    destruct (flat_map escape_char s ++ 34 :: rest) as [|t tail] eqn:E.
    { now destruct (flat_map escape_char s). }
    rewrite scanstring_escape_char by exact Hc.
    rewrite <- E, IH by (auto; simpl in Hf; lia).
    now rewrite <- app_assoc.
Qed.

(** *** Integers *)

Lemma str_of_uint_digits (d : Decimal.uint) :
  forallb is_digit (str_of_uint d) = true.
Proof. induction d; simpl; auto. Qed.

Lemma span_digits_app (ds rest : str) :
  forallb is_digit ds = true ->
  match rest with [] => True | c :: _ => is_digit c = false end ->
  span_digits (ds ++ rest) = (ds, rest).
Proof.
  intros Hds Hrest. induction ds as [|c ds IH]; simpl.
  - destruct rest as [|c rest]; [reflexivity|]. simpl. now rewrite Hrest.
  - simpl in Hds. apply andb_true_iff in Hds as [Hc Hds].
    rewrite Hc, IH by exact Hds. reflexivity.
Qed.

Lemma digits_value_acc (d : Decimal.uint) (acc : positive) :
  fold_left (fun acc c => acc * 10 + (c - 48)) (str_of_uint d) (N.pos acc) =
    N.pos (Pos.of_uint_acc d acc).
Proof.
  revert acc.
  induction d; intros acc; cbn [str_of_uint fold_left Pos.of_uint_acc];
    [reflexivity| ..]; rewrite <- IHd; f_equal; lia.
Qed.

Lemma digits_value_uint (d : Decimal.uint) :
  digits_value (str_of_uint d) = Pos.of_uint d.
Proof.
  unfold digits_value.
  induction d; cbn [str_of_uint fold_left Pos.of_uint];
    [reflexivity | exact IHd | ..]; apply (digits_value_acc d).
Qed.

Lemma nzhead_head (d : Decimal.uint) :
  match Decimal.nzhead d with
  | Decimal.D0 _ => False
  | _ => True
  end.
Proof. induction d; simpl; auto. Qed.

(** The decimal writing of a positive number begins with a digit from 1
    to 9. *)
Lemma to_uint_head (p : positive) :
  exists c ds, str_of_uint (Pos.to_uint p) = c :: ds /\ 49 <= c <= 57.
Proof.
  pose proof (DecimalPos.Unsigned.to_of (Pos.to_uint p)) as Hn.
  rewrite DecimalPos.Unsigned.of_to in Hn. simpl in Hn.
  pose proof (DecimalPos.Unsigned.to_uint_nonzero p) as Hz.
  pose proof (nzhead_head (Pos.to_uint p)) as Hh.
  unfold Decimal.unorm in Hn.
  destruct (Decimal.nzhead (Pos.to_uint p)) eqn:E; rewrite Hn in *;
    try congruence; try contradiction;
    simpl; eexists _, _; (split; [reflexivity | lia]).
Qed.

Lemma digit_cases (c : N) :
  49 <= c <= 57 ->
  c = 49 \/ c = 50 \/ c = 51 \/ c = 52 \/ c = 53 \/ c = 54 \/ c = 55 \/
  c = 56 \/ c = 57.
Proof. lia. Qed.

Lemma follow_cases (rest : str) :
  follow rest = true ->
  rest = [] \/ exists s, rest = 44 :: s \/ rest = 93 :: s \/ rest = 125 :: s.
Proof.
  destruct rest as [|c s]; [now left|]. simpl. intros Hc. right. exists s.
  apply orb_true_iff in Hc as [Hc|Hc]; [apply orb_true_iff in Hc as [Hc|Hc]|];
    apply N.eqb_eq in Hc; subst; auto.
Qed.

Ltac split_digit c H :=
  destruct (digit_cases c H) as [->|[->|[->|[->|[->|[->|[->|[->| ->]]]]]]]].

Ltac split_follow rest H :=
  let s := fresh "s" in
  destruct (follow_cases rest H) as [->|[s [->|[->| ->]]]].

Lemma match_integer_digits (c : N) (ds rest : str) :
  49 <= c <= 57 -> forallb is_digit ds = true -> follow rest = true ->
  match_integer (c :: ds ++ rest) = Some (c :: ds, rest).
Proof.
  intros Hc Hds Hrest. unfold match_integer.
  destruct (N.eqb_spec c 48); [lia|].
  replace (is_digit c) with true
    by (symmetry; apply andb_true_iff; split; apply N.leb_le; lia).
  rewrite span_digits_app; [reflexivity | exact Hds |].
  split_follow rest Hrest; simpl; auto.
Qed.

Lemma match_number_digits (c : N) (ds rest : str) :
  49 <= c <= 57 -> forallb is_digit ds = true -> follow rest = true ->
  match_number (c :: ds ++ rest) =
    Some (PInt (Z.of_N (digits_value (c :: ds))), rest) /\
  match_number (45 :: c :: ds ++ rest) =
    Some (PInt (- Z.of_N (digits_value (c :: ds))), rest).
Proof.
  intros Hc Hds Hrest.
  pose proof (match_integer_digits c ds rest Hc Hds Hrest) as Hi.
  assert (Hs : match_sign (c :: ds ++ rest) = ([], c :: ds ++ rest))
    by (split_digit c Hc; reflexivity).
  unfold match_number. split.
  - rewrite Hs, Hi. split_follow rest Hrest; reflexivity.
  - change (match_sign (45 :: c :: ds ++ rest)) with ([45], c :: ds ++ rest).
    cbv beta iota. rewrite Hi. split_follow rest Hrest; reflexivity.
Qed.

Lemma match_number_int (z : Z) (rest : str) :
  follow rest = true ->
  match_number (int_repr z ++ rest) = Some (PInt z, rest).
Proof.
  intros Hrest. unfold int_repr. destruct z as [|p|p]; simpl Z.to_int; cbv iota.
  - split_follow rest Hrest; reflexivity.
  - destruct (to_uint_head p) as (c & ds & E & Hc).
    pose proof (str_of_uint_digits (Pos.to_uint p)) as Hd.
    pose proof (digits_value_uint (Pos.to_uint p)) as Hv.
    rewrite DecimalPos.Unsigned.of_to in Hv. rewrite E in *.
    simpl in Hd. apply andb_true_iff in Hd as [_ Hd].
    destruct (match_number_digits c ds rest Hc Hd Hrest) as [Hn _].
    cbn [app]. rewrite Hn, Hv. reflexivity.
  - destruct (to_uint_head p) as (c & ds & E & Hc).
    pose proof (str_of_uint_digits (Pos.to_uint p)) as Hd.
    pose proof (digits_value_uint (Pos.to_uint p)) as Hv.
    rewrite DecimalPos.Unsigned.of_to in Hv. rewrite E in *.
    simpl in Hd. apply andb_true_iff in Hd as [_ Hd].
    destruct (match_number_digits c ds rest Hc Hd Hrest) as [_ Hn].
    cbn [app]. rewrite Hn, Hv. reflexivity.
Qed.

(** Where [scan_once] hands over to [match_number]. *)
Lemma scan_once_digit (fuel : nat) (c : N) (s : str) :
  48 <= c <= 57 ->
  scan_once (S fuel) (c :: s) =
    match match_number (c :: s) with
    | Some r => Ok r
    | None => Raise JSONDecodeError
    end.
Proof.
  intros Hc.
  assert (Hd : c = 48 \/ 49 <= c <= 57) by lia.
  destruct Hd as [->|Hd]; [reflexivity|].
  split_digit c Hd; reflexivity.
Qed.

Lemma scan_once_minus (fuel : nat) (c : N) (s : str) :
  48 <= c <= 57 ->
  scan_once (S fuel) (45 :: c :: s) =
    match match_number (45 :: c :: s) with
    | Some r => Ok r
    | None => Raise JSONDecodeError
    end.
Proof.
  intros Hc.
  assert (Hd : c = 48 \/ 49 <= c <= 57) by lia.
  destruct Hd as [->|Hd]; [reflexivity|].
  split_digit c Hd; reflexivity.
Qed.

Lemma scan_once_int (fuel : nat) (z : Z) (rest : str) :
  follow rest = true ->
  scan_once (S fuel) (int_repr z ++ rest) = Ok (PInt z, rest).
Proof.
  intros Hrest. pose proof (match_number_int z rest Hrest) as Hn.
  unfold int_repr in *. destruct z as [|p|p]; simpl Z.to_int in *; cbv iota in *.
  - cbn [str_of_uint app] in *. rewrite scan_once_digit by lia. now rewrite Hn.
  - destruct (to_uint_head p) as (c & ds & E & Hc). rewrite E in *.
    cbn [app] in *. rewrite scan_once_digit by lia. now rewrite Hn.
  - destruct (to_uint_head p) as (c & ds & E & Hc). rewrite E in *.
    cbn [app] in *. rewrite scan_once_minus by lia. now rewrite Hn.
Qed.

(** *** Floats *)

Lemma is_digit_range (c : N) : is_digit c = true <-> 48 <= c <= 57.
Proof.
  unfold is_digit. rewrite andb_true_iff, !N.leb_le. tauto.
Qed.

(** A text that does not go on with a digit. *)
Definition no_digit_ahead (s : str) : Prop :=
  match s with
  | [] => True
  | c :: _ => is_digit c = false
  end.

Lemma follow_no_digit (rest : str) : follow rest = true -> no_digit_ahead rest.
Proof. intros H. split_follow rest H; simpl; auto. Qed.

Lemma match_sign_digit (c : N) (s : str) :
  48 <= c <= 57 -> match_sign (c :: s) = ([], c :: s).
Proof.
  intros Hc. unfold match_sign, behind.
  destruct (N.eqb_spec c 45); [lia | reflexivity].
Qed.

Lemma match_integer_run (c : N) (ds tail : str) :
  49 <= c <= 57 -> forallb is_digit ds = true -> no_digit_ahead tail ->
  match_integer (c :: ds ++ tail) = Some (c :: ds, tail).
Proof.
  intros Hc Hds Htail. unfold match_integer.
  destruct (N.eqb_spec c 48); [lia|].
  replace (is_digit c) with true by (symmetry; apply is_digit_range; lia).
  now rewrite span_digits_app.
Qed.

Lemma match_exp_text (exp rest : str) :
  exp_text exp -> follow rest = true -> match_exp (exp ++ rest) = (exp, rest).
Proof.
  intros [->|(e & sg & ds & -> & He & Hsg & Hne & Hds)] Hrest.
  - cbn [app]. split_follow rest Hrest; reflexivity.
  - destruct ds as [|d ds]; [congruence|].
    pose proof Hds as Hds'. cbn [forallb] in Hds'.
    apply andb_true_iff in Hds' as [Hd _]. apply is_digit_range in Hd.
    assert (Hspan : span_digits ((d :: ds) ++ rest) = (d :: ds, rest))
      by (apply span_digits_app; [exact Hds | now apply follow_no_digit]).
    cbn [app] in Hspan. unfold match_exp. cbn [app].
    replace ((e =? 101) || (e =? 69)) with true
      by (destruct He as [-> | ->]; reflexivity).
    destruct Hsg as [->|[->| ->]]; cbn [app].
    + destruct (N.eqb_spec d 45); [lia|]. destruct (N.eqb_spec d 43); [lia|].
      cbn [orb]. rewrite Hspan. reflexivity.
    + change ((45 =? 45) || (45 =? 43)) with true. cbv iota.
      rewrite Hspan. reflexivity.
    + change ((43 =? 45) || (43 =? 43)) with true. cbv iota.
      rewrite Hspan. reflexivity.
Qed.

Lemma exp_text_ahead (exp rest : str) :
  exp_text exp -> follow rest = true ->
  no_digit_ahead (exp ++ rest) /\ behind 46 (exp ++ rest) = None.
Proof.
  intros [->|(e & sg & ds & -> & He & _)] Hrest.
  - cbn [app]. split_follow rest Hrest; split; now simpl.
  - destruct He as [-> | ->]; split; reflexivity.
Qed.

Lemma match_frac_text (frac tail : str) :
  frac_text frac -> no_digit_ahead tail -> behind 46 tail = None ->
  match_frac (frac ++ tail) = (frac, tail) /\ no_digit_ahead (frac ++ tail).
Proof.
  intros [->|(ds & -> & Hne & Hds)] Htail Hdot.
  - cbn [app]. unfold match_frac. now rewrite Hdot.
  - destruct ds as [|d ds]; [congruence|].
    cbn [forallb] in Hds. apply andb_true_iff in Hds as [Hd Hds].
    split; [|reflexivity].
    unfold match_frac. cbn [app behind]. change (46 =? 46) with true. cbv iota.
    rewrite Hd, span_digits_app by assumption. reflexivity.
Qed.

(** The text of a float, read back as a number. *)
Lemma match_number_float (literal rest : str) :
  float_text literal -> follow rest = true ->
  match_number (literal ++ rest) = Some (PFloat literal, rest).
Proof.
  intros [sign integer frac exp Hsign Hint Hfrac Hexp Hfloat] Hrest.
  destruct (exp_text_ahead exp rest Hexp Hrest) as [Hnd Hdot].
  destruct (match_frac_text frac (exp ++ rest) Hfrac Hnd Hdot) as [Hmf Hnd'].
  pose proof (match_exp_text exp rest Hexp Hrest) as Hme.
  assert (Hmi : match_integer (integer ++ frac ++ exp ++ rest) =
                Some (integer, frac ++ exp ++ rest)).
  { destruct Hint as [->|(c & ds & -> & Hc & Hds)]; [reflexivity|].
    cbn [app]. now apply match_integer_run. }
  assert (Hms : match_sign (sign ++ integer ++ frac ++ exp ++ rest) =
                (sign, integer ++ frac ++ exp ++ rest)).
  { destruct Hsign as [-> | ->]; [|reflexivity]. cbn [app].
    destruct Hint as [->|(c & ds & -> & Hc & Hds)]; cbn [app];
      apply match_sign_digit; lia. }
  unfold match_number. rewrite <- !app_assoc. rewrite Hms, Hmi, Hmf, Hme.
  destruct frac, exp; try reflexivity. destruct Hfloat; congruence.
Qed.

(** What the text of a float begins with. *)
Lemma float_text_head (literal : str) :
  float_text literal ->
  (exists c s, literal = c :: s /\ 48 <= c <= 57) \/
  (exists c s, literal = 45 :: c :: s /\ 48 <= c <= 57).
Proof.
  intros [sign integer frac exp Hsign Hint Hfrac Hexp Hfloat].
  destruct Hsign as [-> | ->]; [left|right];
    destruct Hint as [->|(c & ds & -> & Hc & Hds)]; cbn [app];
    eexists _, _; (split; [reflexivity | lia]).
Qed.

Lemma scan_once_float (fuel : nat) (literal rest : str) :
  float_text literal -> follow rest = true ->
  scan_once (S fuel) (literal ++ rest) = Ok (PFloat literal, rest).
Proof.
  intros Hl Hrest. pose proof (match_number_float literal rest Hl Hrest) as Hn.
  destruct (float_text_head literal Hl) as [(c & s & -> & Hc)|(c & s & -> & Hc)];
    cbn [app] in *.
  - rewrite scan_once_digit by exact Hc. now rewrite Hn.
  - rewrite scan_once_minus by exact Hc. now rewrite Hn.
Qed.

Lemma float_text_ascii (literal : str) : float_text literal -> ascii_text literal.
Proof.
  assert (Hd : forall ds, forallb is_digit ds = true -> ascii_text ds).
  { induction ds as [|d ds IH]; [constructor|]. cbn [forallb].
    intros H. apply andb_true_iff in H as [Hd H]. apply is_digit_range in Hd.
    constructor; [lia | now apply IH]. }
  intros [sign integer frac exp Hsign Hint Hfrac Hexp Hfloat].
  unfold ascii_text.
  apply Forall_app; split; [|apply Forall_app; split; [|apply Forall_app; split]].
  - destruct Hsign as [-> | ->]; repeat constructor.
  - destruct Hint as [->|(c & ds & -> & Hc & Hds)]; [repeat constructor|].
    constructor; [lia | now apply Hd].
  - destruct Hfrac as [->|(ds & -> & _ & Hds)]; [constructor|].
    constructor; [reflexivity | now apply Hd].
  - destruct Hexp as [->|(e & sg & ds & -> & He & Hsg & _ & Hds)]; [constructor|].
    constructor; [destruct He as [-> | ->]; reflexivity|].
    apply Forall_app. split; [|now apply Hd].
    destruct Hsg as [->|[->| ->]]; repeat constructor.
Qed.

(** *** Values *)

Lemma value_start_facts (c : N) :
  value_start c = true ->
  is_whitespace c = false /\ (c =? 93) = false /\ (c =? 125) = false /\
  (c =? 0xFEFF) = false.
Proof.
  unfold value_start. rewrite existsb_exists. intros (x & Hx & E).
  apply N.eqb_eq in E. subst x.
  repeat (destruct Hx as [<-|Hx]; [repeat split; reflexivity|]).
  destruct Hx.
Qed.

Lemma json_dumps_head (v : pyval) :
  json_exact v ->
  exists c s, json_dumps v = c :: s /\ value_start c = true.
Proof.
  intros [|w|z|l Hl|s Hs|items Hi|entries Hn He].
  - now eexists _, _.
  - destruct w; now eexists _, _.
  - unfold json_dumps, int_repr. destruct z as [|p|p]; simpl Z.to_int; cbv iota.
    + now eexists _, _.
    + destruct (to_uint_head p) as (c & ds & -> & Hc).
      exists c, ds. split; [reflexivity|]. split_digit c Hc; reflexivity.
    + now eexists _, _.
  - cbn [json_dumps].
    destruct (float_text_head l Hl) as [(c & s & -> & Hc)|(c & s & -> & Hc)];
      [|now eexists _, _].
    exists c, s. split; [reflexivity|].
    assert (Hd : c = 48 \/ 49 <= c <= 57) by lia.
    destruct Hd as [->|Hd]; [reflexivity|]. split_digit c Hd; reflexivity.
  - now eexists _, _.
  - now eexists _, _.
  - now eexists _, _.
Qed.

Lemma skip_whitespace_value (s rest : str) :
  (exists c s', s = c :: s' /\ value_start c = true) ->
  skip_whitespace (s ++ rest) = s ++ rest /\
  behind 93 (s ++ rest) = None /\ behind 125 (s ++ rest) = None /\
  behind 0xFEFF (s ++ rest) = None.
Proof.
  intros (c & s' & -> & Hc).
  destruct (value_start_facts c Hc) as (Hw & H93 & H125 & Hbom).
  simpl. now rewrite Hw, H93, H125, Hbom.
Qed.

Lemma join_items_head (items : list pyval) :
  items <> [] -> Forall json_exact items ->
  exists c s, join_items items = c :: s /\ value_start c = true.
Proof.
  intros Hne Hall. destruct items as [|x items]; [congruence|].
  apply Forall_inv in Hall.
  destruct (json_dumps_head x Hall) as (c & s & E & Hc).
  destruct items; cbn [join_items]; rewrite E; now eexists _, _.
Qed.

Lemma join_items_cons2 (x y : pyval) (l : list pyval) :
  join_items (x :: y :: l) = json_dumps x ++ 44 :: 32 :: join_items (y :: l).
Proof. reflexivity. Qed.

Lemma join_entries_cons2 (k : str) (x : pyval) (e : str * pyval)
    (l : list (str * pyval)) :
  join_entries ((k, x) :: e :: l) =
    encode_basestring_ascii k ++ 58 :: 32 :: json_dumps x
      ++ 44 :: 32 :: join_entries (e :: l).
Proof. reflexivity. Qed.

Lemma scan_once_str (fuel : nat) (s1 : str) :
  scan_once (S fuel) (34 :: s1) =
    match scanstring (S (length s1)) s1 [] with
    | Ok (v, rest) => Ok (PStr v, rest)
    | Raise e => Raise e
    end.
Proof. reflexivity. Qed.

Lemma scan_once_list (fuel : nat) (s1 : str) :
  scan_once (S fuel) (91 :: s1) =
    match behind 93 (skip_whitespace s1) with
    | Some rest => Ok (PList [], rest)
    | None => array_items fuel (skip_whitespace s1) []
    end.
Proof. reflexivity. Qed.

Lemma scan_once_dict (fuel : nat) (s1 : str) :
  scan_once (S fuel) (123 :: s1) =
    match behind 125 (skip_whitespace s1) with
    | Some rest => Ok (PDict [], rest)
    | None => object_items fuel (skip_whitespace s1) []
    end.
Proof. reflexivity. Qed.

Lemma array_items_step (fuel : nat) (s : str) (acc : list pyval) :
  array_items (S fuel) s acc =
    match scan_once fuel s with
    | Raise e => Raise e
    | Ok (v, s1) =>
        match behind 93 (skip_whitespace s1), behind 44 (skip_whitespace s1) with
        | Some rest, _ => Ok (PList (acc ++ [v]), rest)
        | None, Some s3 => array_items fuel (skip_whitespace s3) (acc ++ [v])
        | None, None => Raise JSONDecodeError
        end
    end.
Proof. reflexivity. Qed.

Lemma object_items_step (fuel : nat) (s : str) (acc : dict) :
  object_items (S fuel) s acc =
    match behind 34 s with
    | None => Raise JSONDecodeError
    | Some s1 =>
        match scanstring (S (length s1)) s1 [] with
        | Raise e => Raise e
        | Ok (key, s2) =>
            match behind 58 (skip_whitespace s2) with
            | None => Raise JSONDecodeError
            | Some s3 =>
                match scan_once fuel (skip_whitespace s3) with
                | Raise e => Raise e
                | Ok (v, s4) =>
                    match behind 125 (skip_whitespace s4),
                          behind 44 (skip_whitespace s4) with
                    | Some rest, _ => Ok (PDict (dict_set acc key v), rest)
                    | None, Some s6 =>
                        object_items fuel (skip_whitespace s6)
                                     (dict_set acc key v)
                    | None, None => Raise JSONDecodeError
                    end
                end
            end
        end
    end.
Proof. reflexivity. Qed.

(** A written string, read back from behind its opening quote. *)
Lemma scanstring_basestring (s rest : str) :
  valid_text s ->
  exists s1, encode_basestring_ascii s ++ rest = 34 :: s1 /\
             scanstring (S (length s1)) s1 [] = Ok (s, rest).
Proof.
  intros Hs. exists (flat_map escape_char s ++ 34 :: rest). split.
  - unfold encode_basestring_ascii. simpl. now rewrite <- app_assoc.
  - apply (scanstring_encoded s Hs _ [] rest).
    rewrite length_app. simpl. pose proof (flat_map_escape_length s). lia.
Qed.

Lemma array_items_dumps (items : list pyval) :
  items <> [] -> Forall json_exact items -> Forall reads_back items ->
  forall fuel acc rest, (length (join_items items) + 1 < fuel)%nat ->
  array_items fuel (join_items items ++ 93 :: rest) acc =
    Ok (PList (acc ++ items), rest).
Proof.
  induction items as [|x items IH]; intros Hne Hex Hrb fuel acc rest Hf;
    [congruence|].
  destruct fuel as [|fuel]; [lia|].
  apply Forall_cons_iff in Hex as [Hx Hex]. apply Forall_cons_iff in Hrb as [Rx Hrb].
  rewrite array_items_step. destruct items as [|y items].
  - cbn [join_items] in *.
    rewrite Rx by (auto; lia). reflexivity.
  - assert (Hne' : y :: items <> []) by discriminate.
    rewrite join_items_cons2 in Hf |- *.
    rewrite length_app in Hf. cbn [length] in Hf.
    rewrite <- app_assoc. cbn [app].
    rewrite Rx by (auto; lia).
    cbn [skip_whitespace is_whitespace behind N.eqb Pos.eqb orb].
    destruct (skip_whitespace_value (join_items (y :: items)) (93 :: rest)
                (join_items_head _ Hne' Hex)) as (-> & _).
    rewrite (IH Hne' Hex Hrb) by lia.
    now rewrite <- app_assoc.
Qed.

Lemma object_items_dumps (entries : list (str * pyval)) :
  entries <> [] ->
  Forall (fun kv => valid_text (fst kv) /\ json_exact (snd kv)) entries ->
  Forall (fun kv => reads_back (snd kv)) entries ->
  forall fuel acc rest,
  NoDup (map fst (acc ++ entries)) ->
  (length (join_entries entries) + 1 < fuel)%nat ->
  object_items fuel (join_entries entries ++ 125 :: rest) acc =
    Ok (PDict (acc ++ entries), rest).
Proof.
  induction entries as [|[k x] entries IH];
    intros Hne Hex Hrb fuel acc rest Hnd Hf; [congruence|].
  destruct fuel as [|fuel]; [lia|].
  apply Forall_cons_iff in Hex as [[Hk Hx] Hex].
  apply Forall_cons_iff in Hrb as [Rx Hrb]. simpl in Hk, Hx, Rx.
  assert (Hnew : dict_set acc k x = acc ++ [(k, x)]).
  { apply dict_set_notin. unfold dict_keys. rewrite map_app in Hnd.
    simpl in Hnd. apply NoDup_remove_2 in Hnd. rewrite in_app_iff in Hnd. tauto. }
  destruct (json_dumps_head x Hx) as (c & s & Ec & Hc).
  rewrite object_items_step. destruct entries as [|e entries].
  - cbn [join_entries] in *. rewrite <- !app_assoc. cbn [app].
    destruct (scanstring_basestring k (58 :: 32 :: json_dumps x ++ 125 :: rest) Hk)
      as (s1 & -> & Hs1).
    rewrite length_app in Hf. cbn [length] in Hf.
    cbn [behind N.eqb Pos.eqb]. rewrite Hs1.
    cbn [skip_whitespace is_whitespace behind N.eqb Pos.eqb orb].
    destruct (skip_whitespace_value (json_dumps x) (125 :: rest)) as (-> & _);
      [now exists c, s|].
    rewrite Rx by (auto; lia).
    cbn [skip_whitespace is_whitespace behind N.eqb Pos.eqb orb].
    now rewrite Hnew.
  - assert (Hne' : e :: entries <> []) by discriminate.
    rewrite join_entries_cons2 in Hf |- *. rewrite <- !app_assoc. cbn [app].
    rewrite <- !app_assoc. cbn [app].
    destruct (scanstring_basestring k
                (58 :: 32 :: json_dumps x ++
                 44 :: 32 :: join_entries (e :: entries) ++ 125 :: rest) Hk)
      as (s1 & -> & Hs1).
    rewrite !length_app in Hf. cbn [length] in Hf. rewrite !length_app in Hf.
    cbn [length] in Hf.
    cbn [behind N.eqb Pos.eqb]. rewrite Hs1.
    cbn [skip_whitespace is_whitespace behind N.eqb Pos.eqb orb].
    destruct (skip_whitespace_value (json_dumps x)
                (44 :: 32 :: join_entries (e :: entries) ++ 125 :: rest))
      as (-> & _); [now exists c, s|].
    rewrite Rx by (auto; lia).
    cbn [skip_whitespace is_whitespace behind N.eqb Pos.eqb orb].
    assert (He : exists c' s', join_entries (e :: entries) = c' :: s' /\
                               value_start c' = true).
    { destruct e as [k' x']. exists 34.
      destruct entries; cbn [join_entries]; unfold encode_basestring_ascii;
        now eexists. }
    destruct (skip_whitespace_value (join_entries (e :: entries)) (125 :: rest) He)
      as (-> & _).
    rewrite Hnew, (IH Hne' Hex Hrb).
    + now rewrite <- app_assoc.
    + now rewrite <- app_assoc.
    + lia.
Qed.

(** Every exact value is read back as it was written. *)
Lemma scan_once_dumps (v : pyval) : json_exact v -> reads_back v.
Proof.
  induction v as [|w|z|l|s|items IH|entries IH] using pyval_ind';
    intros Hv fuel rest Hf Hrest; (destruct fuel as [|fuel]; [lia|]).
  - reflexivity.
  - destruct w; reflexivity.
  - now apply scan_once_int.
  - inversion Hv as [| | |l' Hl| | |]; subst. now apply scan_once_float.
  - inversion Hv as [| | | |s' Hs| |]; subst.
    cbn [json_dumps].
    destruct (scanstring_basestring s rest Hs) as (s1 & -> & Hs1).
    now rewrite scan_once_str, Hs1.
  - inversion Hv as [| | | | |items' Hex|]; subst.
    assert (Hrb : Forall reads_back items).
    { rewrite Forall_forall in *. intros x Hx. apply IH; auto. }
    rewrite json_dumps_list in *. cbn [app]. rewrite <- app_assoc. cbn [app].
    rewrite scan_once_list. destruct items as [|x items].
    + reflexivity.
    + assert (Hne : x :: items <> []) by discriminate.
      destruct (skip_whitespace_value (join_items (x :: items)) (93 :: rest)
                  (join_items_head _ Hne Hex)) as (-> & -> & _).
      cbn [length] in Hf. rewrite length_app in Hf. cbn [length] in Hf.
      now rewrite (array_items_dumps _ Hne Hex Hrb) by lia.
  - inversion Hv as [| | | | | |entries' Hnd Hex]; subst.
    assert (Hrb : Forall (fun kv => reads_back (snd kv)) entries).
    { rewrite Forall_forall in *. intros kv Hkv. apply IH; auto.
      now apply Hex. }
    rewrite json_dumps_dict in *. cbn [app]. rewrite <- app_assoc. cbn [app].
    rewrite scan_once_dict. destruct entries as [|e entries].
    + reflexivity.
    + assert (Hne : e :: entries <> []) by discriminate.
      assert (He : exists c' s', join_entries (e :: entries) = c' :: s' /\
                                 value_start c' = true).
      { destruct e as [k' x']. exists 34.
        destruct entries; cbn [join_entries]; unfold encode_basestring_ascii;
          now eexists. }
      destruct (skip_whitespace_value (join_entries (e :: entries)) (125 :: rest) He)
        as (-> & _ & -> & _).
      cbn [length] in Hf. rewrite length_app in Hf. cbn [length] in Hf.
      now rewrite (object_items_dumps _ Hne Hex Hrb) by (auto; lia).
Qed.

(** [json.loads (json.dumps v)] is [v]. *)
Lemma json_loads_dumps (v : pyval) :
  json_exact v -> json_loads (json_dumps v) = Ok v.
Proof.
  intros Hv. unfold json_loads.
  destruct (skip_whitespace_value (json_dumps v) [] (json_dumps_head v Hv))
    as (Hw & _ & _ & Hbom).
  rewrite app_nil_r in Hw, Hbom. rewrite Hbom, Hw.
  pose proof (scan_once_dumps v Hv (2 * length (json_dumps v) + 2)%nat []) as R.
  rewrite app_nil_r in R. rewrite R by (auto; lia). reflexivity.
Qed.

(** *** The fuel is enough: reading ends, with a value or a JSONDecodeError *)

Lemma skip_whitespace_length (s : str) :
  (length (skip_whitespace s) <= length s)%nat.
Proof.
  induction s as [|c s IH]; simpl; [lia|].
  destruct (is_whitespace c); simpl; lia.
Qed.

Lemma behind_length (c : N) (s rest : str) :
  behind c s = Some rest -> length s = S (length rest).
Proof.
  destruct s as [|c' s]; simpl; [discriminate|].
  destruct (c' =? c); [|discriminate]. now intros [= ->].
Qed.

Lemma strip_prefix_length (p s rest : str) :
  strip_prefix p s = Some rest -> (length s = length p + length rest)%nat.
Proof.
  revert s. induction p as [|x p IH]; intros s; simpl.
  - now intros [= ->].
  - destruct s as [|y s]; [discriminate|]. destruct (x =? y); [|discriminate].
    intros E. apply IH in E. simpl. lia.
Qed.

Lemma hex4_length (s rest : str) (c : N) :
  hex4 s = Some (c, rest) -> (length s = 4 + length rest)%nat.
Proof.
  unfold hex4. destruct s as [|x3 [|x2 [|x1 [|x0 s]]]]; try discriminate.
  destruct (hex_value x3), (hex_value x2), (hex_value x1), (hex_value x0);
    try discriminate.
  now intros [= _ ->].
Qed.

Lemma scanstring_ends (fuel : nat) :
  forall s acc, (length s < fuel)%nat -> ends s (scanstring fuel s acc).
Proof.
  induction fuel as [|fuel IH]; intros s acc Hf; [lia|].
  assert (IH' : forall s' acc', (length s' < length s)%nat ->
                ends s (scanstring fuel s' acc')).
  { intros s' acc' Hs'. specialize (IH s' acc' ltac:(lia)).
    unfold ends in *. destruct (scanstring fuel s' acc') as [[v rest]|e];
      [lia | exact IH]. }
  cbn [scanstring]. destruct s as [|c s1]; [reflexivity|].
  destruct (c =? 34); [simpl; lia|].
  destruct (c =? 92).
  - destruct s1 as [|e s2]; [reflexivity|]. destruct (e =? 117).
    + destruct (hex4 s2) as [[c1 s3]|] eqn:E1; [|reflexivity].
      apply hex4_length in E1.
      destruct (is_high_surrogate c1 && (7 <=? length s3)%nat);
        [|apply IH'; simpl; lia].
      destruct (behind 92 s3) as [s3'|] eqn:B1; [|apply IH'; simpl; lia].
      destruct (behind 117 s3') as [s4|] eqn:B2; [|apply IH'; simpl; lia].
      apply behind_length in B1, B2.
      destruct (hex4 s4) as [[c2 s5]|] eqn:E2; [|reflexivity].
      apply hex4_length in E2.
      destruct (is_low_surrogate c2); apply IH'; simpl; lia.
    + destruct (unescape e); [apply IH'; simpl; lia | reflexivity].
  - destruct (c <? 32); [reflexivity | apply IH'; simpl; lia].
Qed.

Lemma span_digits_length (s : str) :
  (length (snd (span_digits s)) <= length s)%nat.
Proof.
  induction s as [|c s IH]; simpl; [lia|].
  destruct (is_digit c); [|simpl; lia].
  destruct (span_digits s); simpl in *. lia.
Qed.

Lemma match_sign_length (s : str) :
  (length (snd (match_sign s)) <= length s)%nat.
Proof.
  unfold match_sign. destruct (behind 45 s) eqn:B; simpl; [|lia].
  apply behind_length in B. lia.
Qed.

Lemma match_integer_length (s integer rest : str) :
  match_integer s = Some (integer, rest) -> (length rest < length s)%nat.
Proof.
  unfold match_integer. destruct s as [|c s]; [discriminate|].
  destruct (c =? 48); [intros [= _ <-]; simpl; lia|].
  destruct (is_digit c); [|discriminate].
  pose proof (span_digits_length s). destruct (span_digits s).
  intros [= _ <-]. simpl in *. lia.
Qed.

Lemma match_frac_length (s : str) :
  (length (snd (match_frac s)) <= length s)%nat.
Proof.
  unfold match_frac. destruct (behind 46 s) as [[|c s']|] eqn:B; simpl; try lia.
  apply behind_length in B. destruct (is_digit c); [|simpl; lia].
  pose proof (span_digits_length s'). destruct (span_digits s').
  simpl in *. lia.
Qed.

Lemma match_exp_length (s : str) :
  (length (snd (match_exp s)) <= length s)%nat.
Proof.
  unfold match_exp. destruct s as [|e s']; [simpl; lia|].
  destruct ((e =? 101) || (e =? 69)); [|simpl; lia].
  destruct s' as [|c t].
  - simpl. lia.
  - destruct ((c =? 45) || (c =? 43)).
    + pose proof (span_digits_length t).
      destruct (span_digits t) as [[|d l] r]; simpl in *; lia.
    + pose proof (span_digits_length (c :: t)).
      destruct (span_digits (c :: t)) as [[|d l] r]; simpl in *; lia.
Qed.

Lemma match_number_ends (s rest : str) (v : pyval) :
  match_number s = Some (v, rest) -> (length rest < length s)%nat.
Proof.
  unfold match_number.
  pose proof (match_sign_length s) as H1.
  destruct (match_sign s) as [sign s1]. simpl in H1.
  destruct (match_integer s1) as [[integer s2]|] eqn:E2; [|discriminate].
  apply match_integer_length in E2.
  pose proof (match_frac_length s2) as H3.
  destruct (match_frac s2) as [frac s3]. simpl in H3.
  pose proof (match_exp_length s3) as H4.
  destruct (match_exp s3) as [exp s4]. simpl in H4.
  destruct frac, exp; intros [= _ <-]; lia.
Qed.

Lemma ends_shorter {A : Type} (s s' : str) (r : result (A * str)) :
  (length s' <= length s)%nat -> ends s' r -> ends s r.
Proof.
  unfold ends. destruct r as [[v rest]|e]; [lia | auto].
Qed.

Lemma scan_ends (fuel : nat) :
  (forall s, (2 * length s + 1 <= fuel)%nat -> ends s (scan_once fuel s)) /\
  (forall s acc, (2 * length s + 2 <= fuel)%nat ->
     ends s (array_items fuel s acc)) /\
  (forall s acc, (2 * length s + 2 <= fuel)%nat ->
     ends s (object_items fuel s acc)).
Proof.
  induction fuel as [|fuel (IHs & IHa & IHo)].
  { repeat split; intros; lia. }
  repeat split.
  - intros s Hf. destruct s as [|c s1]; [reflexivity|]. cbn [scan_once].
    cbn [length] in Hf.
    destruct (c =? 34).
    { pose proof (scanstring_ends (S (length s1)) s1 [] ltac:(lia)) as E.
      unfold ends in *.
      destruct (scanstring (S (length s1)) s1 []) as [[v rest]|e];
        [simpl; lia | exact E]. }
    destruct (c =? 123).
    { pose proof (skip_whitespace_length s1) as Hw. cbv zeta.
      destruct (behind 125 (skip_whitespace s1)) as [rest|] eqn:B.
      - apply behind_length in B. simpl. lia.
      - apply (ends_shorter _ (skip_whitespace s1)); [simpl; lia|].
        apply IHo. lia. }
    destruct (c =? 91).
    { pose proof (skip_whitespace_length s1) as Hw. cbv zeta.
      destruct (behind 93 (skip_whitespace s1)) as [rest|] eqn:B.
      - apply behind_length in B. simpl. lia.
      - apply (ends_shorter _ (skip_whitespace s1)); [simpl; lia|].
        apply IHa. lia. }
    destruct (strip_prefix (u "null") (c :: s1)) eqn:P1;
      [apply strip_prefix_length in P1; simpl in *; lia|].
    destruct (strip_prefix (u "true") (c :: s1)) eqn:P2;
      [apply strip_prefix_length in P2; simpl in *; lia|].
    destruct (strip_prefix (u "false") (c :: s1)) eqn:P3;
      [apply strip_prefix_length in P3; simpl in *; lia|].
    destruct (strip_prefix (u "NaN") (c :: s1)) eqn:P4;
      [apply strip_prefix_length in P4; simpl in *; lia|].
    destruct (strip_prefix (u "Infinity") (c :: s1)) eqn:P5;
      [apply strip_prefix_length in P5; simpl in *; lia|].
    destruct (strip_prefix (u "-Infinity") (c :: s1)) eqn:P6;
      [apply strip_prefix_length in P6; simpl in *; lia|].
    destruct (match_number (c :: s1)) as [[v rest]|] eqn:M; [|reflexivity].
    apply match_number_ends in M. exact M.
  - intros s acc Hf. rewrite array_items_step.
    specialize (IHs s ltac:(lia)). unfold ends in IHs |- *.
    destruct (scan_once fuel s) as [[v s1]|e]; [|exact IHs].
    pose proof (skip_whitespace_length s1) as Hw.
    destruct (behind 93 (skip_whitespace s1)) as [rest|] eqn:B1.
    { apply behind_length in B1. lia. }
    destruct (behind 44 (skip_whitespace s1)) as [s3|] eqn:B2; [|reflexivity].
    apply behind_length in B2. pose proof (skip_whitespace_length s3) as Hw3.
    specialize (IHa (skip_whitespace s3) (acc ++ [v]) ltac:(lia)).
    unfold ends in IHa.
    destruct (array_items fuel (skip_whitespace s3) (acc ++ [v])) as [[v' r]|e];
      [lia | exact IHa].
  - intros s acc Hf. rewrite object_items_step. unfold ends.
    destruct (behind 34 s) as [s1|] eqn:B0; [|reflexivity].
    apply behind_length in B0.
    pose proof (scanstring_ends (S (length s1)) s1 [] ltac:(lia)) as E.
    unfold ends in E.
    destruct (scanstring (S (length s1)) s1 []) as [[key s2]|e]; [|exact E].
    pose proof (skip_whitespace_length s2) as Hw2.
    destruct (behind 58 (skip_whitespace s2)) as [s3|] eqn:B1; [|reflexivity].
    apply behind_length in B1. pose proof (skip_whitespace_length s3) as Hw3.
    specialize (IHs (skip_whitespace s3) ltac:(lia)). unfold ends in IHs.
    destruct (scan_once fuel (skip_whitespace s3)) as [[v s4]|e]; [|exact IHs].
    pose proof (skip_whitespace_length s4) as Hw4.
    destruct (behind 125 (skip_whitespace s4)) as [rest|] eqn:B2.
    { apply behind_length in B2. lia. }
    destruct (behind 44 (skip_whitespace s4)) as [s6|] eqn:B3; [|reflexivity].
    apply behind_length in B3. pose proof (skip_whitespace_length s6) as Hw6.
    specialize (IHo (skip_whitespace s6) (dict_set acc key v) ltac:(lia)).
    unfold ends in IHo.
    destruct (object_items fuel (skip_whitespace s6) (dict_set acc key v))
      as [[v' r]|e]; [lia | exact IHo].
Qed.

(** [json.loads] raises nothing but JSONDecodeError. *)
Lemma json_loads_raises (s : str) (e : exn) :
  json_loads s = Raise e -> e = JSONDecodeError.
Proof.
  unfold json_loads. destruct (behind 65279 s); [congruence|].
  pose proof (skip_whitespace_length s) as Hw.
  destruct (scan_ends (2 * length s + 2)) as (E & _).
  specialize (E (skip_whitespace s) ltac:(lia)). unfold ends in E.
  destruct (scan_once _ (skip_whitespace s)) as [[v rest]|e']; [|congruence].
  destruct (skip_whitespace rest); congruence.
Qed.

Lemma utf8_decode_raises (data : bytes) :
  forall e, Utf8.decode data = Raise e -> e = UnicodeDecodeError.
Proof.
  remember (length data) as n eqn:Hn. revert data Hn.
  induction n as [n IH] using lt_wf_ind. intros data Hn e.
  destruct data as [|x0 rest]; [discriminate|]. cbn [Utf8.decode].
  assert (IH' : forall d, (length d < n)%nat ->
                forall e', Utf8.decode d = Raise e' -> e' = UnicodeDecodeError)
    by (intros d Hd e'; apply (IH (length d) Hd d eq_refl)).
  simpl in Hn.
  destruct (N_of_ascii x0 <? 128).
  { destruct (Utf8.decode rest) eqn:E; [discriminate|].
    intros [= <-]. apply (IH' rest); [lia | exact E]. }
  destruct (N_of_ascii x0 <? 194); [congruence|].
  destruct (N_of_ascii x0 <? 224).
  { destruct rest as [|x1 rest']; [congruence|].
    destruct (Utf8.continuation 128 191 x1); [|congruence].
    destruct (Utf8.decode rest'); congruence. }
  destruct (N_of_ascii x0 <? 240).
  { destruct rest as [|x1 [|x2 rest']]; try congruence.
    destruct (Utf8.continuation _ _ x1); [|congruence].
    destruct (Utf8.continuation 128 191 x2); [|congruence].
    destruct (Utf8.decode rest'); congruence. }
  destruct (N_of_ascii x0 <? 245); [|congruence].
  destruct rest as [|x1 [|x2 [|x3 rest']]]; try congruence.
  destruct (Utf8.continuation _ _ x1); [|congruence].
  destruct (Utf8.continuation 128 191 x2); [|congruence].
  destruct (Utf8.continuation 128 191 x3); [|congruence].
  destruct (Utf8.decode rest'); congruence.
Qed.

Lemma utf8_encode_raises (s : str) (e : exn) :
  Utf8.encode s = Raise e -> e = UnicodeEncodeError.
Proof.
  induction s as [|c s IH]; [discriminate|]. cbn [Utf8.encode].
  destruct (Utf8.encode_code_point c) eqn:Ec.
  - destruct (Utf8.encode s); [discriminate|]. intros [= <-]. now apply IH.
  - intros [= <-]. unfold Utf8.encode_code_point in Ec.
    repeat match type of Ec with
           | (if ?x then _ else _) = _ => destruct x
           end; congruence.
Qed.

(** The default deserializer raises nothing [load_content] does not
    handle. *)
Lemma json_load_bytes_raises (content : bytes) (e : exn) :
  json_load_bytes content = Raise e -> is_ValueError e = true.
Proof.
  unfold json_load_bytes. destruct (Utf8.decode content) eqn:E.
  - intros R. apply json_loads_raises in R. now subst.
  - intros [= <-]. apply utf8_decode_raises in E. now subst.
Qed.

(** *** What [json_dumps] writes is ASCII *)

Lemma ascii_text_app (s t : str) :
  ascii_text s -> ascii_text t -> ascii_text (s ++ t).
Proof. intros Hs Ht. apply Forall_app. now split. Qed.

Lemma hex_digit_ascii (d : N) : d < 16 -> hex_digit d < 128.
Proof. unfold hex_digit. destruct (N.ltb_spec d 10); lia. Qed.

Lemma u_escape_ascii (n : N) : n < 65536 -> ascii_text (u_escape n).
Proof.
  intros Hn. unfold u_escape.
  repeat (constructor; [try (apply hex_digit_ascii); lia|]). constructor.
Qed.

Lemma escape_char_ascii (c : N) :
  is_scalar c = true -> ascii_text (escape_char c).
Proof.
  intros Hc. unfold is_scalar in Hc. apply andb_true_iff in Hc as [Hlt _].
  apply N.ltb_lt in Hlt. unfold escape_char.
  repeat match goal with
         | |- ascii_text (if ?c =? ?k then _ else _) =>
             destruct (c =? k); [repeat constructor|]
         end.
  destruct ((32 <=? c) && (c <=? 126)) eqn:Hp.
  - apply andb_true_iff in Hp as [_ Hp]. apply N.leb_le in Hp.
    repeat constructor. lia.
  - destruct (N.ltb_spec c 0x10000).
    + now apply u_escape_ascii.
    + apply ascii_text_app; apply u_escape_ascii; lia.
Qed.

Lemma encode_basestring_ascii_text (s : str) :
  valid_text s -> ascii_text (encode_basestring_ascii s).
Proof.
  unfold valid_text, encode_basestring_ascii. intros Hs.
  constructor; [reflexivity|]. apply ascii_text_app; [|repeat constructor].
  induction s as [|c s IH]; [constructor|].
  simpl in Hs. apply andb_true_iff in Hs as [Hc Hs].
  cbn [flat_map]. apply ascii_text_app; [now apply escape_char_ascii | now apply IH].
Qed.

Lemma int_repr_ascii (z : Z) : ascii_text (int_repr z).
Proof.
  assert (Hd : forall d, ascii_text (str_of_uint d))
    by (induction d; simpl; constructor; (reflexivity || assumption)).
  unfold int_repr. destruct (Z.to_int z); [|constructor; [reflexivity|]]; apply Hd.
Qed.

Lemma json_dumps_ascii (v : pyval) : json_exact v -> ascii_text (json_dumps v).
Proof.
  induction v as [|w|z|l|s|items IH|entries IH] using pyval_ind'; intros Hv.
  - repeat constructor.
  - destruct w; repeat constructor.
  - apply int_repr_ascii.
  - inversion Hv; subst. now apply float_text_ascii.
  - inversion Hv; subst. now apply encode_basestring_ascii_text.
  - inversion Hv as [| | | | |items' Hex|]; subst.
    rewrite json_dumps_list. constructor; [reflexivity|].
    apply ascii_text_app; [|repeat constructor].
    induction items as [|x items IHi]; [constructor|].
    apply Forall_cons_iff in IH as [IHx IH].
    apply Forall_cons_iff in Hex as [Hx Hex].
    destruct items as [|y items]; [now apply IHx|].
    rewrite join_items_cons2. apply ascii_text_app; [now apply IHx|].
    do 2 (constructor; [reflexivity|]). apply IHi; auto. now constructor.
  - inversion Hv as [| | | | | |entries' Hnd Hex]; subst.
    rewrite json_dumps_dict. constructor; [reflexivity|].
    apply ascii_text_app; [|repeat constructor].
    clear Hnd Hv.
    induction entries as [|[k x] entries IHe]; [constructor|].
    apply Forall_cons_iff in IH as [IHx IH].
    apply Forall_cons_iff in Hex as [[Hk Hx] Hex]. simpl in IHx, Hk, Hx.
    assert (Hkx : ascii_text (encode_basestring_ascii k ++ 58 :: 32 :: json_dumps x)).
    { apply ascii_text_app; [now apply encode_basestring_ascii_text|].
      do 2 (constructor; [reflexivity|]). now apply IHx. }
    destruct entries as [|e entries]; [exact Hkx|].
    rewrite join_entries_cons2.
    replace (encode_basestring_ascii k ++ 58 :: 32 :: json_dumps x ++
             44 :: 32 :: join_entries (e :: entries))
      with ((encode_basestring_ascii k ++ 58 :: 32 :: json_dumps x) ++
            44 :: 32 :: join_entries (e :: entries))
      by (rewrite <- app_assoc; reflexivity).
    apply ascii_text_app; [exact Hkx|].
    do 2 (constructor; [reflexivity|]). now apply IHe.
Qed.

(** The default serializer writes an exact mapping, and the default
    deserializer reads it back. *)
Lemma json_bytes_round_trip (content : dict) :
  json_exact (PDict content) ->
  exists serialized, json_dump_bytes content = Ok serialized /\
                     json_load_bytes serialized = Ok (PDict content).
Proof.
  intros Hc. exists (map ascii_of_N (json_dumps (PDict content))).
  destruct (utf8_encode_ascii_str _ (json_dumps_ascii _ Hc)) as [He Hd].
  unfold json_dump_bytes, json_load_bytes. rewrite He, Hd.
  split; [reflexivity | now apply json_loads_dumps].
Qed.

End JsonProperties.

(** ** The pipeline of the cookie backend *)

Section PipelineProperties.

Import CookieBackend.

(** Whatever the serializer and the signer are: a token made by
    [save_content] is read back by [load_content] as far as they read their
    own output back. *)
Lemma pipeline_round_trip (self : CookieSessionBackend) (now now' : Z)
    (content : dict) (serialized signed : bytes) (v : pyval) :
  __serializer self content = Ok serialized ->
  sign_content self now serialized = Ok signed ->
  unsign_content self now' signed = Ok serialized ->
  __deserializer self serialized = Ok v ->
  exists token, save_content self now content = Ok token /\
                load_content self now' token = Ok v.
Proof.
  intros Hser Hsign Hunsign Hdeser.
  exists (map N_of_ascii (Base64.urlsafe_b64encode signed)).
  pose proof (urlsafe_b64encode_ascii signed) as Ha.
  unfold save_content, load_content. rewrite Hser. cbn [bind]. rewrite Hsign.
  cbn [bind]. rewrite (utf8_decode_ascii _ Ha), (utf8_encode_ascii _ Ha).
  cbn [bind]. rewrite urlsafe_b64decode_encode. cbn [bind].
  rewrite Hunsign. cbn [bind]. rewrite Hdeser. auto.
Qed.

(** The token is not unique: when the signed bytes end one byte past a
    whole number of groups of three, the token with a bit flipped among those
    the decoder does not look at is another token, of the same length, and
    loads to the same result, whatever the serializer and the signer. *)
Lemma token_malleable (self : CookieSessionBackend) (now : Z) (content : dict)
    (serialized data : bytes) (x : ascii) :
  __serializer self content = Ok serialized ->
  sign_content self now serialized = Ok (data ++ [x]) ->
  (length data mod 3 = 0)%nat ->
  let token :=
    map N_of_ascii (map Base64._urlsafe_encode_translation
                      (Base64.b2a_base64 data ++ Base64.last_group x 0)) in
  let token' :=
    map N_of_ascii (map Base64._urlsafe_encode_translation
                      (Base64.b2a_base64 data ++ Base64.last_group x 1)) in
  save_content self now content = Ok token /\
  token' <> token /\ length token' = length token /\
  forall now', load_content self now' token' = load_content self now' token.
Proof.
  intros Hser Hsign Hl token token'.
  assert (Henc : Base64.urlsafe_b64encode (data ++ [x]) =
                 map Base64._urlsafe_encode_translation
                     (Base64.b2a_base64 data ++ Base64.last_group x 0)).
  { unfold Base64.urlsafe_b64encode. rewrite b2a_base64_app by exact Hl.
    unfold Base64.last_group. cbn [Base64.b2a_base64].
    now rewrite N.add_0_r. }
  pose proof (N_ascii_bounded x) as Hx.
  assert (Hascii : forall k, (k < 16)%N ->
            Forall (fun c => (N_of_ascii c < 128)%N)
                   (map Base64._urlsafe_encode_translation
                        (Base64.b2a_base64 data ++ Base64.last_group x k))).
  { intros k Hk. rewrite map_app. apply Forall_app. split.
    - pose proof (urlsafe_b64encode_ascii data) as Ha.
      exact Ha.
    - unfold Base64.last_group. cbn [map].
      repeat (constructor;
              [try (apply urlsafe_char; lia); try (vm_compute; reflexivity)|]).
      constructor. }
  repeat split.
  - unfold save_content. rewrite Hser. cbn [bind]. rewrite Hsign. cbn [bind].
    rewrite Henc. apply utf8_decode_ascii, (Hascii 0%N). lia.
  - unfold token, token'. intros E.
    rewrite !map_app in E. apply app_inv_head in E.
    unfold Base64.last_group in E. cbn [map] in E.
    apply (f_equal (fun l => ascii_of_N (nth 1%nat l 0%N))) in E. cbn [nth] in E.
    rewrite !ascii_N_embedding in E.
    apply urlsafe_char_inj in E; lia.
  - unfold token, token'. rewrite !length_map, !length_app. reflexivity.
  - intros now'. unfold load_content, token, token'.
    rewrite !utf8_encode_ascii by (apply Hascii; lia). cbn [bind].
    rewrite !urlsafe_b64decode_last_group by (auto; lia). reflexivity.
Qed.

(** C5. With the default JSON serializer and deserializer and the signing
    that changes nothing, [load_content (save_content M)] is [M], for every
    mapping [M] of text keys, each once, to [None], booleans, integers, finite
    floats, text, and lists and mappings of these. *)
Theorem cookie_round_trip (max_age : option Z) (now now' : Z) (M : dict)
    (HM : Json.json_exact (PDict M)) :
  let backend := __init__ max_age Json.json_dump_bytes Json.json_load_bytes in
  exists token, save_content backend now M = Ok token /\
                load_content backend now' token = Ok (PDict M).
Proof.
  intros backend.
  destruct (json_bytes_round_trip M HM) as (serialized & Hs & Hl).
  now apply (pipeline_round_trip backend now now' M serialized serialized).
Qed.

End PipelineProperties.

(** ** The signed cookie *)

Section SignerProperties.

Import SignedCookie.
Variable digest : bytes -> bytes.

Lemma rsplit_no_sep (s : bytes) : no_sep s -> rsplit s = None.
Proof.
  induction 1 as [|c s Hc _ IH]; [reflexivity|].
  simpl. rewrite IH. destruct (Ascii.eqb_spec c sep); congruence.
Qed.

Lemma rsplit_app (x y : bytes) :
  no_sep y -> rsplit (x ++ sep :: y) = Some (x, y).
Proof.
  intros Hy. induction x as [|c x IH]; simpl.
  - now rewrite (rsplit_no_sep y Hy).
  - now rewrite IH.
Qed.

Lemma ascii_of_N_no_sep (n : N) :
  (n < 256)%N -> n <> 46%N -> ascii_of_N n <> sep.
Proof.
  intros Hn Hne E. apply (f_equal N_of_ascii) in E.
  rewrite N_ascii_embedding in E by exact Hn. now apply Hne.
Qed.

Lemma hex_digit_range (d : N) :
  (d < 16)%N -> (48 <= Json.hex_digit d <= 102)%N.
Proof. unfold Json.hex_digit. destruct (N.ltb_spec d 10); lia. Qed.

Lemma hex_no_sep (data : bytes) : no_sep (hex data).
Proof.
  unfold hex. induction data as [|c data IH]; [constructor|].
  pose proof (N_ascii_bounded c) as Hc.
  pose proof (hex_digit_range (N_of_ascii c / 16) ltac:(lia)).
  pose proof (hex_digit_range (N_of_ascii c mod 16) ltac:(lia)).
  cbn [flat_map app].
  repeat (constructor; [apply ascii_of_N_no_sep; lia|]). exact IH.
Qed.

Lemma int_repr_chars (z : Z) :
  Forall (fun c => (c = 45 \/ 48 <= c <= 57)%N) (Json.int_repr z).
Proof.
  assert (Hd : forall d, Forall (fun c => (c = 45 \/ 48 <= c <= 57)%N)
                                (Json.str_of_uint d))
    by (induction d; simpl; constructor; (assumption || lia)).
  unfold Json.int_repr. destruct (Z.to_int z); [|constructor; [lia|]]; apply Hd.
Qed.

Lemma timestamp_text_no_sep (t : Z) : no_sep (timestamp_text t).
Proof.
  unfold timestamp_text, no_sep. rewrite Forall_map.
  eapply Forall_impl; [|apply int_repr_chars].
  intros c Hc. cbv beta in Hc. apply ascii_of_N_no_sep; lia.
Qed.

Lemma timestamp_text_codes (t : Z) :
  map N_of_ascii (timestamp_text t) = Json.int_repr t.
Proof.
  unfold timestamp_text. rewrite map_map.
  pose proof (int_repr_chars t) as Hc.
  induction Hc as [|c s Hc _ IH]; [reflexivity|].
  simpl. rewrite IH, N_ascii_embedding by lia. reflexivity.
Qed.

Lemma parse_timestamp_text (t : Z) :
  (0 <= t)%Z -> parse_timestamp (timestamp_text t) = Some t.
Proof.
  intros Ht. unfold parse_timestamp. rewrite timestamp_text_codes.
  unfold Json.int_repr. destruct t as [|p|p]; [reflexivity| |lia].
  simpl Z.to_int. cbv iota.
  destruct (to_uint_head p) as (c & ds & E & Hc).
  pose proof (str_of_uint_digits (Pos.to_uint p)) as Hd.
  pose proof (digits_value_uint (Pos.to_uint p)) as Hv.
  rewrite DecimalPos.Unsigned.of_to in Hv.
  rewrite E in *. rewrite Hd, Hv. reflexivity.
Qed.

Lemma bytes_eqb_refl (x : bytes) : bytes_eqb x x = true.
Proof. unfold bytes_eqb. destruct (list_eq_dec ascii_dec x x); congruence. Qed.

(** What [model_unsign] makes of a value signed at the time [t]. *)
Lemma model_unsign_sign (t now : Z) (max_age : option Z) (value : bytes) :
  (0 <= t)%Z ->
  model_unsign digest now max_age (model_sign digest t value) =
    match max_age with
    | Some a =>
        if (a <? now - t)%Z then Raise SignatureExpired
        else if (now - t <? 0)%Z then Raise SignatureExpired
        else Ok value
    | None => Ok value
    end.
Proof.
  intros Ht. unfold model_unsign, model_sign.
  rewrite rsplit_app by apply hex_no_sep.
  rewrite bytes_eqb_refl. cbn [negb].
  rewrite rsplit_app by apply timestamp_text_no_sep.
  rewrite parse_timestamp_text by exact Ht. reflexivity.
Qed.

(** The model signer keeps the contract, whatever the digest. *)
Lemma model_signer_contract : signer_contract (model_signer digest).
Proof.
  constructor; cbn [unsign sign model_signer].
  - intros now max_age signed e. unfold model_unsign.
    destruct (rsplit signed) as [[value sig]|]; [|now intros [= <-]].
    destruct (rsplit value) as [[payload ts_bytes]|].
    + destruct (negb _); [now intros [= <-]|].
      destruct (parse_timestamp ts_bytes); [|now intros [= <-]].
      destruct max_age; [|discriminate].
      destruct (_ <? _)%Z; [now intros [= <-]|].
      destruct (_ <? _)%Z; [now intros [= <-]|discriminate].
    + destruct (bytes_eqb _ _); now intros [= <-].
  - intros t now max_age value Ht Hage. rewrite model_unsign_sign by exact Ht.
    destruct max_age as [a|]; [|reflexivity].
    specialize (Hage a eq_refl).
    destruct (Z.ltb_spec a (now - t)); [lia|].
    destruct (Z.ltb_spec (now - t) 0); [lia | reflexivity].
  - intros t now a value Ht Hage. rewrite model_unsign_sign by exact Ht.
    destruct (Z.ltb_spec a (now - t)); [reflexivity | lia].
Qed.

End SignerProperties.

Section SignedCookieProperties.

Import CookieBackend.
Variable timestamper : SignedCookie.TimestampSigner.
Variable serializer : dict -> result bytes.
Variable deserializer : bytes -> result pyval.

(** What [save_content] returns, when it returns: the base64 text of the
    signed serialization. *)
Lemma signed_save_content (max_age : option Z) (t : Z) (M : dict) (token : str) :
  save_content (SignedCookie.__init__ timestamper max_age serializer deserializer)
               t M = Ok token ->
  exists serialized,
    serializer M = Ok serialized /\
    token = map N_of_ascii
              (Base64.urlsafe_b64encode (SignedCookie.sign timestamper t serialized)).
Proof.
  unfold save_content. cbn [__serializer sign_content SignedCookie.__init__].
  destruct (serializer M) as [serialized|]; [|discriminate]. cbn [bind].
  unfold SignedCookie.sign_content. cbn [bind].
  rewrite (utf8_decode_ascii _ (urlsafe_b64encode_ascii _)).
  intros [= <-]. now exists serialized.
Qed.

(** [load_content] of such a token, by what [unsign] makes of the signed
    bytes. *)
Lemma signed_load_content (max_age : option Z) (t now : Z) (serialized : bytes) :
  load_content (SignedCookie.__init__ timestamper max_age serializer deserializer)
    now (map N_of_ascii
           (Base64.urlsafe_b64encode (SignedCookie.sign timestamper t serialized))) =
  match SignedCookie.unsign timestamper now max_age
          (SignedCookie.sign timestamper t serialized) with
  | Ok unsigned =>
      match deserializer unsigned with
      | Ok v => Ok v
      | Raise e => if is_ValueError e then Ok (PDict []) else Raise e
      end
  | Raise e => if is_BadSignature e then Ok (PDict [])
               else if is_ValueError e then Ok (PDict []) else Raise e
  end.
Proof.
  unfold load_content.
  rewrite (utf8_encode_ascii _ (urlsafe_b64encode_ascii _)). cbn [bind].
  rewrite urlsafe_b64decode_encode. cbn [bind].
  cbn [unsign_content __deserializer SignedCookie.__init__].
  unfold SignedCookie.unsign_content.
  destruct (SignedCookie.unsign timestamper now max_age _) as [unsigned|e];
    cbn [bind]; [reflexivity|].
  now destruct (is_BadSignature e).
Qed.

(** C7. A token signed at the time [t] and loaded later than [max_age]
    seconds after is rejected: [load_content] returns the empty mapping and
    the session made of the cookie is empty; with [max_age = 1], two seconds
    after is an instance.  Without a [max_age] the time of loading does not
    matter: [load_content] returns what the deserializer makes of what was
    serialized. *)
Theorem expired_token_rejected
    (Hcontract : SignedCookie.signer_contract timestamper)
    (max_age t now : Z) (M : dict) (token : str) (Ht : (0 <= t)%Z)
    (Hsave : save_content (SignedCookie.__init__ timestamper (Some max_age)
                             serializer deserializer) t M = Ok token)
    (Hexpired : (max_age < now - t)%Z) :
  let backend :=
    SignedCookie.__init__ timestamper (Some max_age) serializer deserializer in
  let unlimited :=
    SignedCookie.__init__ timestamper None serializer deserializer in
  load_content backend now token = Ok (PDict []) /\
  CookieBase.__init__ backend now (Some token) =
    Ok (CookieBase.mkSession [] false false) /\
  forall token' serialized,
    save_content unlimited t M = Ok token' ->
    serializer M = Ok serialized ->
    load_content unlimited now token' =
      match deserializer serialized with
      | Ok v => Ok v
      | Raise e => if is_ValueError e then Ok (PDict []) else Raise e
      end.
Proof.
  intros backend unlimited.
  destruct (signed_save_content _ _ _ _ Hsave) as (serialized & Hser & ->).
  assert (Hload : load_content backend now
            (map N_of_ascii (Base64.urlsafe_b64encode
               (SignedCookie.sign timestamper t serialized))) = Ok (PDict [])).
  { unfold backend. rewrite signed_load_content.
    now rewrite (SignedCookie.unsign_expired _ Hcontract). }
  split; [exact Hload|]. split.
  - unfold CookieBase.__init__.
    replace (CookieBase.load_content backend now _)
      with (Ok (A:=pyval) (PDict [])) by (symmetry; exact Hload).
    reflexivity.
  - intros token' serialized' Hsave' Hser'.
    destruct (signed_save_content _ _ _ _ Hsave') as (s2 & Hs2 & ->).
    assert (s2 = serialized') by congruence. subst s2.
    unfold unlimited. rewrite signed_load_content.
    rewrite (SignedCookie.unsign_fresh _ Hcontract); [reflexivity | exact Ht|].
    discriminate.
Qed.

(** C6, as amended. [load_content] lets no exception out and takes a
    failure at any step for no session: a token that cannot be encoded or
    decoded, signed bytes [unsign] refuses (signature or time), a payload the
    deserializer refuses, each gives the empty mapping; what is left is a
    token whose signed bytes pass [unsign] and whose payload deserializes. *)
Theorem load_content_fails_open
    (Hunsign : forall now max_age signed e,
       SignedCookie.unsign timestamper now max_age signed = Raise e ->
       is_BadSignature e = true)
    (Hdeserializer : forall payload e,
       deserializer payload = Raise e -> is_ValueError e = true)
    (max_age : option Z) (now : Z) (token : str) :
  let backend :=
    SignedCookie.__init__ timestamper max_age serializer deserializer in
  (exists v, load_content backend now token = Ok v) /\
  ((forall encoded, Utf8.encode token <> Ok encoded) ->
     load_content backend now token = Ok (PDict [])) /\
  (forall encoded, Utf8.encode token = Ok encoded ->
     (forall decoded, Base64.urlsafe_b64decode encoded <> Ok decoded) ->
     load_content backend now token = Ok (PDict [])) /\
  (forall encoded decoded, Utf8.encode token = Ok encoded ->
     Base64.urlsafe_b64decode encoded = Ok decoded ->
     (forall unsigned,
        SignedCookie.unsign timestamper now max_age decoded <> Ok unsigned) ->
     load_content backend now token = Ok (PDict [])) /\
  (forall encoded decoded unsigned, Utf8.encode token = Ok encoded ->
     Base64.urlsafe_b64decode encoded = Ok decoded ->
     SignedCookie.unsign timestamper now max_age decoded = Ok unsigned ->
     load_content backend now token =
       match deserializer unsigned with
       | Ok v => Ok v
       | Raise _ => Ok (PDict [])
       end).
Proof.
  intros backend.
  assert (Hall :
    load_content backend now token =
      match Utf8.encode token with
      | Raise _ => Ok (PDict [])
      | Ok encoded =>
          match Base64.urlsafe_b64decode encoded with
          | Raise _ => Ok (PDict [])
          | Ok decoded =>
              match SignedCookie.unsign timestamper now max_age decoded with
              | Raise _ => Ok (PDict [])
              | Ok unsigned =>
                  match deserializer unsigned with
                  | Ok v => Ok v
                  | Raise _ => Ok (PDict [])
                  end
              end
          end
      end).
  { unfold load_content.
    destruct (Utf8.encode token) as [encoded|e] eqn:E1; cbn [bind].
    2: { apply utf8_encode_raises in E1. now subst. }
    destruct (Base64.urlsafe_b64decode encoded) as [decoded|e] eqn:E2; cbn [bind].
    2: { apply urlsafe_b64decode_raises in E2. now subst. }
    cbn [unsign_content __deserializer backend SignedCookie.__init__].
    unfold SignedCookie.unsign_content.
    destruct (SignedCookie.unsign timestamper now max_age decoded)
      as [unsigned|e] eqn:E3; cbn [bind].
    2: { now rewrite (Hunsign _ _ _ _ E3). }
    destruct (deserializer unsigned) as [v|e] eqn:E4; [reflexivity|].
    now rewrite (Hdeserializer _ _ E4). }
  repeat split.
  - rewrite Hall.
    destruct (Utf8.encode token); [|now eexists].
    destruct (Base64.urlsafe_b64decode _); [|now eexists].
    destruct (SignedCookie.unsign _ _ _ _); [|now eexists].
    destruct (deserializer _); now eexists.
  - intros Hno. rewrite Hall.
    destruct (Utf8.encode token) as [encoded|]; [|reflexivity].
    now destruct (Hno encoded).
  - intros encoded E1 Hno. rewrite Hall, E1.
    destruct (Base64.urlsafe_b64decode encoded) as [decoded|]; [|reflexivity].
    now destruct (Hno decoded).
  - intros encoded decoded E1 E2 Hno. rewrite Hall, E1, E2.
    destruct (SignedCookie.unsign _ _ _ _) as [unsigned|]; [|reflexivity].
    now destruct (Hno unsigned).
  - intros encoded decoded unsigned E1 E2 E3. now rewrite Hall, E1, E2, E3.
Qed.

End SignedCookieProperties.

(** ** The two kinds of session, side by side *)

Section LazyMaterialization.

Context {B : Type} `{Base.BaseSessionBackend B}.
Context {C : Type} `{CookieBase.BaseCookieSessionBackend C}.

(** C4, as amended. A store-backed session made without a cookie never
    calls [load_session], whatever is done with it, and no session calls its
    backend before the first key access.  Left unused, the store-backed
    session made without a cookie has [accessed] false and [content] [None],
    and no identifier was made for it; the session held in the cookie has
    [accessed] false and, for [content], the token of its empty mapping. *)
Theorem lazy_materialization (b0 : B) (ops : list Base.op) (cookie : option str)
    (backend : C) (now : Z) :
  Base.count Base.is_load (Base.request_calls None ops b0) = 0 /\
  (forallb (fun o => negb (Base.is_key_access o)) ops = true ->
   Base.session_of_request cookie ops b0 =
     (Base.__init__ cookie, Base.mkWorld b0 [])) /\
  Base.accessed (Base.__init__ None) = false /\
  Base.content (Base.__init__ None) (Base.mkWorld b0 []) =
    (Ok None, Base.__init__ None, Base.mkWorld b0 []) /\
  CookieBase.__init__ backend now None =
    Ok (CookieBase.mkSession [] false false) /\
  CookieBase.accessed (CookieBase.mkSession [] false false) = false /\
  fst (CookieBase.content backend now (CookieBase.mkSession [] false false)) =
    match CookieBase.save_content backend now [] with
    | Ok token => Ok (Some token)
    | Raise e => Raise e
    end.
Proof.
  destruct (no_cookie_lazy ops b0) as (_ & Hload & _).
  repeat split; auto.
  - intros Hops. unfold Base.session_of_request.
    now apply run_ops_no_key_access.
  - unfold CookieBase.content. simpl.
    now destruct (CookieBase.save_content backend now []).
Qed.

End LazyMaterialization.

(** ** The definitions run on the examples *)

Section Examples.

Import Memory CookieBackend.
Import Example.

(** C4 as it was stated fails on the session held in the cookie: unused,
    made without a cookie, its [content] is a token, not [None]. *)
Lemma unused_cookie_session_has_content :
  exists self,
    CookieBase.__init__ plain 0 None = Ok self /\
    CookieBase.accessed self = false /\
    fst (CookieBase.content plain 0 self) = Ok (Some (u "e30=")) /\
    fst (CookieBase.content plain 0 self) <> Ok None.
Proof.
  exists (CookieBase.mkSession [] false false).
  repeat split; try reflexivity. vm_compute. discriminate.
Qed.

(** C2 as it was stated fails: iterating over a session with a sid the store
    knows loads it, and the terminal read saves it; nothing is kept alive. *)
Lemma iteration_materializes :
  Base.request_calls (Some sid1) [Base.Iter] memory =
    [Base.LoadSession sid1; Base.SaveSession sid1 stored] /\
  ~ (Base.count Base.is_keep (Base.request_calls (Some sid1) [Base.Iter] memory) = 1 /\
     Base.count Base.is_load (Base.request_calls (Some sid1) [Base.Iter] memory) = 0 /\
     Base.count Base.is_save (Base.request_calls (Some sid1) [Base.Iter] memory) = 0).
Proof.
  split; [reflexivity|]. vm_compute. intros (E & _). discriminate E.
Qed.

Lemma keep_alive_path_witness :
  Base.request_calls (Some sid1) [Base.Clear] memory = [Base.KeepSession sid1] /\
  Base.request_calls (Some sid1) [Base.Iter] memory =
    [Base.LoadSession sid1; Base.SaveSession sid1 stored].
Proof.
  apply (keep_alive_path sid1 stored memory memory [Base.Clear]); reflexivity.
Defined.

(** C3 fails on the code: the session of [sid1] holds two entries, and
    [__len__] answers 0. *)
Lemma len_of_stored_session :
  let '(r, self, w) := Base.__len__ (Base.__init__ (Some sid1))
                                    (Base.mkWorld memory []) in
  r = Ok 0%nat /\ option_map dict_len (Base.__session self) = Some 2%nat.
Proof. split; reflexivity. Qed.

Lemma profile_exact : Json.json_exact (PDict profile).
Proof.
  assert (Hfloat : Json.float_text (u "1.5e-05")).
  { apply (Json.float_text_parts [] [49] [46; 53] (101 :: [45] ++ [48; 53]))%N.
    - now left.
    - right. now exists 49%N, [].
    - right. now exists [53]%N.
    - right. exists 101%N, [45]%N, [48; 53]%N. repeat split; auto. discriminate.
    - left. discriminate. }
  constructor.
  - repeat constructor; cbn [map fst In]; intros H;
      repeat (destruct H as [H|H]; [discriminate|]); destruct H.
  - repeat (constructor; cbn [fst snd]); try reflexivity; try exact Hfloat;
      cbn [In]; intros H; repeat (destruct H as [H|H]; [discriminate|]);
      destruct H.
Qed.

Lemma profile_token :
  CookieBackend.save_content plain 0 profile = Ok (u "eyJuYW1lIjogIlpvXHUwMGViIiwgInNlZW4iOiBbMywgLTcsIDEuNWUtMDUsIHRydWUsIG51bGxdLCAicHJlZnMiOiB7InRoZW1lIjogImRhcmsiLCAidGFicyI6IFtdfX0=").
Proof. reflexivity. Qed.

Lemma cookie_round_trip_witness :
  exists token, CookieBackend.save_content plain 0 profile = Ok token /\
                CookieBackend.load_content plain 7 token = Ok (PDict profile).
Proof. exact (cookie_round_trip (Some 3600%Z) 0 7 profile profile_exact). Defined.

(** C6 as it was stated fails: flipping one bit of the last character
    before the padding of a valid token gives another token, which loads to
    the mapping that was signed. *)
Lemma flipped_token_still_loads :
  CookieBackend.save_content signed 1001 cart = Ok token1001 /\
  flip 21 2 token1001 = u "eyJhIjogMX0uMTAwMS43ZC==" /\
  flip 21 2 token1001 <> token1001 /\
  CookieBackend.load_content signed 1001 token1001 = Ok (PDict cart) /\
  CookieBackend.load_content signed 1001 (flip 21 2 token1001) = Ok (PDict cart) /\
  CookieBackend.load_content signed 1001 (flip 21 2 token1001) <> Ok (PDict []).
Proof.
  repeat split; try (vm_compute; reflexivity); vm_compute; discriminate.
Qed.

Lemma load_content_fails_open_witness :
  exists v, CookieBackend.load_content signed 1001 (flip 3 1 token1001) = Ok v.
Proof.
  exact (proj1 (load_content_fails_open timestamper Json.json_dump_bytes
                  Json.json_load_bytes
                  (SignedCookie.unsign_raises _ (model_signer_contract digest))
                  json_load_bytes_raises (Some 1%Z) 1001 (flip 3 1 token1001))).
Defined.

Lemma expired_token_rejected_witness :
  CookieBackend.load_content signed 1002 token1000 = Ok (PDict []).
Proof.
  refine (proj1 (expired_token_rejected timestamper Json.json_dump_bytes
                   Json.json_load_bytes (model_signer_contract digest)
                   1 1000 1002 cart token1000 _ _ _)).
  - lia.
  - vm_compute. reflexivity.
  - lia.
Defined.

Lemma clear_semantics_witness :
  fst (CookieBase.content plain 0
         (CookieBase.run_ops (CookieBase.sets [(u "k", PInt 1)])
            (CookieBase.run_op CookieBase.Clear
               (CookieBase.mkSession stored true false)))) =
    match CookieBase.save_content plain 0 (CookieBase.written [(u "k", PInt 1)]) with
    | Ok token => Ok (Some token)
    | Raise e => Raise e
    end.
Proof.
  refine (proj1 (proj2 (proj2 (clear_semantics plain 0
            (CookieBase.mkSession stored true false) [(u "k", PInt 1)] _ _)))).
  - discriminate.
  - intros token Hsave. vm_compute in Hsave. injection Hsave as <-.
    vm_compute. reflexivity.
Defined.

Lemma content_sets_accessed_witness :
  CookieBase.accessed
    (snd (CookieBase.content plain 0 (CookieBase.mkSession stored false false))) = true.
Proof.
  refine (proj1 (content_sets_accessed plain 0
                   (CookieBase.mkSession stored false false) _)).
  reflexivity.
Defined.

End Examples.
